(** * sklift.metrics: uplift and Qini curves, top-k uplift score

    A shallow embedding of [sklift/metrics/metrics.py].  Arrays are lists;
    real-valued entries are exact rationals ([Q]), so rounding and overflow
    of binary floating point are outside the model, while the two special
    results a division can produce (NaN, infinity) are kept as [NonFinite].
    Exceptions are an explicit [result] type. *)

From Stdlib Require Import String Ascii.
From Stdlib Require Import List ZArith QArith Qround Lia Bool Arith.
From Stdlib Require Import Permutation Sorted Lqa.
Import ListNotations.

Local Open Scope Z_scope.

(** ** Exceptions *)

Inductive value_error :=
| InconsistentLength     (* check_consistent_length *)
| UnsupportedAverage     (* average not in ['first', 'group'] *)
| KOutOfRange            (* k=... should be either positive and smaller ... *)
| KInvalidKind           (* Invalid value for k: ... *)
| GroupTooSmallCtrl      (* ... in the control group *)
| GroupTooSmallTrmnt.    (* ... in the treatment group *)

Inductive exn :=
| IndexError
| ValueError (why : value_error).

Inductive result (A : Type) :=
| Ok (a : A)
| Raise (e : exn).

Arguments Ok {A} a.
Arguments Raise {A} e.

Definition bind {A B} (m : result A) (k : A -> result B) : result B :=
  match m with
  | Ok a => k a
  | Raise e => Raise e
  end.

Notation "x <- m ;; k" := (bind m (fun x => k))
  (at level 61, m at next level, right associativity).

Fixpoint mapM {A B} (f : A -> result B) (l : list A) : result (list B) :=
  match l with
  | [] => Ok []
  | x :: l' => y <- f x ;; ys <- mapM f l' ;; Ok (y :: ys)
  end.

(** ** Array elements that went through a division *)

Inductive fval :=
| Finite (q : Q)
| NonFinite.

Definition is_finite (v : fval) : Prop :=
  match v with Finite _ => True | NonFinite => False end.

Definition feq (a b : fval) : Prop :=
  match a, b with
  | Finite x, Finite y => x == y
  | NonFinite, NonFinite => True
  | _, _ => False
  end.

Definition fdiv (a b : Q) : fval :=
  if Qeq_bool b 0 then NonFinite else Finite (a / b).

Definition flift2 (op : Q -> Q -> Q) (a b : fval) : fval :=
  match a, b with
  | Finite x, Finite y => Finite (op x y)
  | _, _ => NonFinite
  end.

Definition fsub := flift2 Qminus.
Definition fmul := flift2 Qmult.

(** [v != 0]: true for NaN and for the infinities. *)
Definition fnonzero (v : fval) : bool :=
  match v with
  | Finite q => negb (Qeq_bool q 0)
  | NonFinite => true
  end.

(** ** The numpy primitives the module calls *)

Module NumPy.

Section Sorting.
Context {A : Type} (le : A -> A -> bool).

Fixpoint insert (x : A) (l : list A) : list A :=
  match l with
  | [] => [x]
  | y :: l' => if le x y then x :: l else y :: insert x l'
  end.

(** A stable sort: [x] comes before the rest of the input and is put in
    front of the first element it does not exceed. *)
Fixpoint sort (l : list A) : list A :=
  match l with
  | [] => []
  | x :: l' => insert x (sort l')
  end.
End Sorting.

Definition key_le (p q : nat * Q) : bool := Qle_bool (snd p) (snd q).

Definition enumerate (a : list Q) : list (nat * Q) :=
  combine (seq 0 (length a)) a.

(** [np.argsort(a, kind="mergesort")]: the indices of [a] in ascending
    order of value, equal values in input order. *)
Definition argsort (a : list Q) : list nat :=
  map fst (sort key_le (enumerate a)).

(** [a[i]] for an integer [i]; a negative index counts from the end. *)
Definition getitem {A} (a : list A) (i : Z) : result A :=
  let n := Z.of_nat (length a) in
  let j := if i <? 0 then i + n else i in
  if (0 <=? j) && (j <? n) then
    match nth_error a (Z.to_nat j) with
    | Some x => Ok x
    | None => Raise IndexError
    end
  else Raise IndexError.

(** [a[idx]] for an integer index array. *)
Definition take {A} (a : list A) (idx : list Z) : result (list A) :=
  mapM (getitem a) idx.

(** Elementwise binary operation on arrays of one shape. *)
Fixpoint map2 {A B C} (f : A -> B -> C) (l : list A) (m : list B) : list C :=
  match l, m with
  | x :: l', y :: m' => f x y :: map2 f l' m'
  | _, _ => []
  end.

(** [b = a.copy(); b[mask] = v]. *)
Definition masked_fill (a : list Q) (mask : list bool) (v : Q) : list Q :=
  map2 (fun x (m : bool) => if m then v else x) a mask.

(** [np.diff(a)]. *)
Fixpoint diff (a : list Q) : list Q :=
  match a with
  | x :: (y :: _) as t => (y - x)%Q :: diff t
  | _ => []
  end.

Fixpoint nonzero_from (i : Z) (a : list Q) : list Z :=
  match a with
  | [] => []
  | x :: a' =>
      if Qeq_bool x 0 then nonzero_from (i + 1) a'
      else i :: nonzero_from (i + 1) a'
  end.

(** [np.where(a)[0]]: the positions of the nonzero entries. *)
Definition where_nonzero (a : list Q) : list Z := nonzero_from 0 a.

Fixpoint cumsum_from (acc : Q) (a : list Q) : list Q :=
  match a with
  | [] => []
  | x :: a' => (acc + x)%Q :: cumsum_from (acc + x)%Q a'
  end.

(** [stable_cumsum(a)]: running sums, as floats. *)
Definition cumsum (a : list Q) : list Q := cumsum_from 0 a.

(** [np.divide(a, b, out=out, where=mask)]. *)
Fixpoint divide_where (a b out : list Q) (mask : list bool) : list fval :=
  match a, b, out, mask with
  | x :: a', y :: b', o :: out', m :: mask' =>
      (if m then fdiv x y else Finite o) :: divide_where a' b' out' mask'
  | _, _, _, _ => []
  end.

Definition zeros_like {A} (a : list A) : list Q := map (fun _ => 0%Q) a.

Definition sum (a : list Q) : Q := fold_right Qplus 0%Q a.

(** [a.mean()]; the mean of an empty array is NaN (with a warning). *)
Definition mean (a : list Q) : fval :=
  fdiv (sum a) (inject_Z (Z.of_nat (length a))).

(** [a[mask]] for a boolean mask of the shape of [a]. *)
Fixpoint compress {A} (a : list A) (mask : list bool) : list A :=
  match a, mask with
  | x :: a', m :: mask' =>
      if m then x :: compress a' mask' else compress a' mask'
  | _, _ => []
  end.

(** [a[:n]]. *)
Definition slice_to {A} (a : list A) (n : Z) : list A :=
  if n <? 0 then firstn (length a - Z.to_nat (- n))%nat a
  else firstn (Z.to_nat n) a.

(** [np.unique(a, return_counts=True)]: the distinct values in ascending
    order and how often each occurs. *)
Definition unique (a : list Z) : list Z := sort Z.leb (nodup Z.eq_dec a).

Definition unique_counts (a : list Z) : list Z :=
  map (fun v => Z.of_nat (count_occ Z.eq_dec a v)) (unique a).

End NumPy.

(** ** sklift.metrics *)

Module Metrics.
Import NumPy.

(** The ranking kernel both curve builders start with: the stable ascending
    argsort is reversed, and the three arrays are re-indexed with it. *)
Definition desc_score_indices (uplift : list Q) : list Z :=
  map Z.of_nat (rev (argsort uplift)).

(** [np.r_[np.where(np.diff(uplift))[0], uplift.size - 1]]. *)
Definition threshold_indices (uplift : list Q) : list Z :=
  where_nonzero (diff uplift) ++ [Z.of_nat (length uplift) - 1].

(** [num_all.size == 0 or curve_values[0] != 0 or num_all[0] != 0],
    evaluated left to right. *)
Definition off_origin (num_all : list Z) (curve_values : list fval)
  : result bool :=
  if (length num_all =? 0)%nat then Ok true
  else
    c0 <- getitem curve_values 0 ;;
    if fnonzero c0 then Ok true
    else n0 <- getitem num_all 0 ;; Ok (negb (n0 =? 0)).

Definition add_origin (num_all : list Z) (curve_values : list fval)
  : result (list Z * list fval) :=
  b <- off_origin num_all curve_values ;;
  if b : bool then Ok (0 :: num_all, Finite 0 :: curve_values)
  else Ok (num_all, curve_values).

Definition Qarr (a : list Z) : list Q := map inject_Z a.
Definition Farr (a : list Z) : list fval :=
  map (fun z => Finite (inject_Z z)) a.
Definition ne0 (a : list Q) : list bool :=
  map (fun x => negb (Qeq_bool x 0)) a.

Definition uplift_curve (y_true uplift : list Q) (treatment : list Z)
  : result (list Z * list fval) :=
  let idx := desc_score_indices uplift in
  y_true <- take y_true idx ;;
  uplift <- take uplift idx ;;
  treatment <- take treatment idx ;;
  let y_true_ctrl := masked_fill y_true (map (Z.eqb 1) treatment) 0 in
  let y_true_trmnt := masked_fill y_true (map (Z.eqb 0) treatment) 0 in
  let threshold_indices := threshold_indices uplift in
  num_trmnt <- take (cumsum (Qarr treatment)) threshold_indices ;;
  y_trmnt <- take (cumsum y_true_trmnt) threshold_indices ;;
  let num_all := map (fun i => i + 1) threshold_indices in
  let num_ctrl := map2 (fun a t => inject_Z a - t)%Q num_all num_trmnt in
  y_ctrl <- take (cumsum y_true_ctrl) threshold_indices ;;
  let curve_values :=
    map2 fmul
      (map2 fsub
         (divide_where y_trmnt num_trmnt (zeros_like y_trmnt) (ne0 num_trmnt))
         (divide_where y_ctrl num_ctrl (zeros_like y_ctrl) (ne0 num_ctrl)))
      (Farr num_all) in
  add_origin num_all curve_values.

Definition qini_curve (y_true uplift : list Q) (treatment : list Z)
  : result (list Z * list fval) :=
  let idx := desc_score_indices uplift in
  y_true <- take y_true idx ;;
  treatment <- take treatment idx ;;
  uplift <- take uplift idx ;;
  let y_true_ctrl := masked_fill y_true (map (Z.eqb 1) treatment) 0 in
  let y_true_trmnt := masked_fill y_true (map (Z.eqb 0) treatment) 0 in
  let threshold_indices := threshold_indices uplift in
  num_trmnt <- take (cumsum (Qarr treatment)) threshold_indices ;;
  y_trmnt <- take (cumsum y_true_trmnt) threshold_indices ;;
  let num_all := map (fun i => i + 1) threshold_indices in
  let num_ctrl := map2 (fun a t => inject_Z a - t)%Q num_all num_trmnt in
  y_ctrl <- take (cumsum y_true_ctrl) threshold_indices ;;
  let curve_values :=
    map2 fsub (map Finite y_trmnt)
      (map2 fmul (map Finite y_ctrl)
         (divide_where num_trmnt num_ctrl (zeros_like num_trmnt)
            (ne0 num_ctrl))) in
  add_origin num_all curve_values.

Section Areas.
(** [sklearn.metrics.auc], the trapezoidal integrator, is not part of this
    module; it is left open. *)
Variable auc : list Z -> list fval -> result fval.

Definition auuc (y_true uplift : list Q) (treatment : list Z) : result fval :=
  curve <- uplift_curve y_true uplift treatment ;;
  auc (fst curve) (snd curve).

Definition auqc (y_true uplift : list Q) (treatment : list Z) : result fval :=
  curve <- qini_curve y_true uplift treatment ;;
  auc (fst curve) (snd curve).
End Areas.

(** The window parameter [k] with the kind numpy gives it:
    ['i'] for a Python int, ['f'] for a float, anything else otherwise. *)
Inductive other_kind := Kind_b | Kind_u | Kind_c | Kind_m | Kind_M
                      | Kind_O | Kind_S | Kind_U | Kind_V.

Inductive kparam :=
| KInt (z : Z)
| KFloat (q : Q)
| KOther (kind : other_kind).

Definition k_out_of_range (k : kparam) (n_samples : Z) : bool :=
  match k with
  | KInt z => (z >=? n_samples) || (z <=? 0)
  | KFloat q => Qle_bool q 0 || Qle_bool 1 q
  | KOther _ => false
  end.

Definition k_kind_known (k : kparam) : bool :=
  match k with KInt _ | KFloat _ => true | KOther _ => false end.

Definition check_consistent_length (a b c : nat) : result unit :=
  if ((a =? b) && (b =? c))%nat then Ok tt
  else Raise (ValueError InconsistentLength).

Definition count_eq (v : Z) (a : list Z) : Z :=
  Z.of_nat (length (filter (Z.eqb v) a)).

Section UpliftAtK.
(** [np.argsort] with its default kind: which of several equal scores
    comes first is not fixed, so the sort is left open here. *)
Variable argsort_default : list Q -> list nat.

(** The product of a count and a float [k] is a float64: the exact
    product rounded by the machine.  [round64 x] stands for the float64
    that the real number [x] is rounded to; it is left open as well. *)
Variable round64 : Q -> Q.

(** [np.argsort(uplift)[::-1]]. *)
Definition at_k_order (uplift : list Q) : list Z :=
  map Z.of_nat (rev (argsort_default uplift)).

(** [ceil(n * k)] for a float [k], the product being rounded to a float
    before [ceil]; [k] itself for an int. *)
Definition window (n : Z) (k : kparam) : Z :=
  match k with
  | KInt z => z
  | KFloat q => Qceiling (round64 (inject_Z n * q))
  | KOther _ => 0
  end.

Definition uplift_at_k (y_true uplift : list Q) (treatment : list Z)
    (k : kparam) (average : string) : result fval :=
  _ <- check_consistent_length
         (length y_true) (length uplift) (length treatment) ;;
  if negb (existsb (String.eqb average) ["first"; "group"]%string)
  then Raise (ValueError UnsupportedAverage) else
  let n_samples := Z.of_nat (length y_true) in
  let order := at_k_order uplift in
  let treatment_counts := unique_counts treatment in
  n_samples_ctrl <- getitem treatment_counts 0 ;;
  n_samples_trmnt <- getitem treatment_counts 1 ;;
  if k_out_of_range k n_samples then Raise (ValueError KOutOfRange) else
  if negb (k_kind_known k) then Raise (ValueError KInvalidKind) else
  if String.eqb average "first" then
    let n_size := window n_samples k in
    y_ord <- take y_true order ;;
    t_ord <- take treatment order ;;
    let y_top := slice_to y_ord n_size in
    let t_top := slice_to t_ord n_size in
    let score_ctrl := mean (compress y_top (map (Z.eqb 0) t_top)) in
    let score_trmnt := mean (compress y_top (map (Z.eqb 1) t_top)) in
    Ok (fsub score_trmnt score_ctrl)
  else
    let n_ctrl := window (count_eq 0 treatment) k in
    let n_trmnt := window (count_eq 1 treatment) k in
    if n_ctrl >? n_samples_ctrl
    then Raise (ValueError GroupTooSmallCtrl) else
    if n_trmnt >? n_samples_trmnt
    then Raise (ValueError GroupTooSmallTrmnt) else
    y_ord <- take y_true order ;;
    t_ord <- take treatment order ;;
    let score_ctrl :=
      mean (slice_to (compress y_ord (map (Z.eqb 0) t_ord)) n_ctrl) in
    let score_trmnt :=
      mean (slice_to (compress y_ord (map (Z.eqb 1) t_ord)) n_trmnt) in
    Ok (fsub score_trmnt score_ctrl).
End UpliftAtK.

End Metrics.

Import NumPy Metrics.

(** * Vocabulary of the statements *)

(** ** Ranking *)

(** Ascending by score, and by input position among equal scores. *)
Definition lex_lt (p q : nat * Q) : Prop :=
  (snd p < snd q)%Q \/ ((snd p == snd q)%Q /\ (fst p < fst q)%nat).

(** The ranking: (input position, score) pairs, best score first. *)
Definition ranked_pairs (u : list Q) : list (nat * Q) :=
  rev (sort key_le (enumerate u)).

(** Position [i] closes a run of equal scores in [a]. *)
Definition run_end (a : list Q) (i : nat) : Prop :=
  (i < length a)%nat /\
  (S i = length a \/ ~ (nth i a 0 == nth (S i) a 0)%Q).

(** ** The curve values as the code computes them *)

(** The guarded quotient: [0] where the denominator is [0]. *)
Definition guarded_div (a b : Q) : Q :=
  if Qeq_bool b 0 then 0%Q else (a / b)%Q.

(** One ranked subject. *)
Record subject := { outcome : Q; score : Q; treated : Z }.

(** The three re-indexed arrays, row by row. *)
Definition ranked (y u : list Q) (t : list Z) : list subject :=
  map (fun i => {| outcome := nth i y 0%Q;
                   score := nth i u 0%Q;
                   treated := nth i t 0 |})
      (rev (argsort u)).

Definition ctrl_view (rows : list subject) : list Q :=
  map (fun r => if 1 =? treated r then 0%Q else outcome r) rows.

Definition trmnt_view (rows : list subject) : list Q :=
  map (fun r => if 0 =? treated r then 0%Q else outcome r) rows.

Definition labels (rows : list subject) : list Q :=
  map (fun r => inject_Z (treated r)) rows.

Definition at_pos (a : list Q) (p : Z) : Q := nth (Z.to_nat p) a 0%Q.

Section CurveValues.
Variable rows : list subject.

Definition num_trmnt_at (p : Z) : Q := at_pos (cumsum (labels rows)) p.
Definition y_trmnt_at (p : Z) : Q := at_pos (cumsum (trmnt_view rows)) p.
Definition y_ctrl_at (p : Z) : Q := at_pos (cumsum (ctrl_view rows)) p.
Definition num_ctrl_at (p : Z) : Q :=
  (inject_Z (p + 1) - num_trmnt_at p)%Q.

Definition uplift_value (p : Z) : Q :=
  ((guarded_div (y_trmnt_at p) (num_trmnt_at p)
    - guarded_div (y_ctrl_at p) (num_ctrl_at p)) * inject_Z (p + 1))%Q.

Definition qini_value (p : Z) : Q :=
  (y_trmnt_at p
   - y_ctrl_at p * guarded_div (num_trmnt_at p) (num_ctrl_at p))%Q.
End CurveValues.

(** ** The curve values as the specification words them *)

Definition is_treated (r : subject) : bool := treated r =? 1.

Definition is_control (r : subject) : bool := treated r =? 0.

(** The ranked subjects up to and including position [p]. *)
Definition so_far (rows : list subject) (p : nat) : list subject :=
  firstn (S p) rows.

Definition group_count (g : subject -> bool) (rows : list subject) : nat :=
  length (filter g rows).

Definition group_sum (g : subject -> bool) (rows : list subject) : Q :=
  sum (map outcome (filter g rows)).

Definition Qnat (n : nat) : Q := inject_Z (Z.of_nat n).

(** [sum / count], and exactly [0] when the count is [0]. *)
Definition safe_mean (s : Q) (c : nat) : Q :=
  if (c =? 0)%nat then 0%Q else (s / Qnat c)%Q.

(** [count_a / count_b], and [0] when [count_b] is [0]. *)
Definition safe_ratio (a b : nat) : Q :=
  if (b =? 0)%nat then 0%Q else (Qnat a / Qnat b)%Q.

Definition spec_uplift_value (rows : list subject) (p : nat) : Q :=
  let seen := so_far rows p in
  ((safe_mean (group_sum is_treated seen) (group_count is_treated seen)
    - safe_mean (group_sum is_control seen) (group_count is_control seen))
   * Qnat (S p))%Q.

Definition spec_qini_value (rows : list subject) (p : nat) : Q :=
  let seen := so_far rows p in
  (group_sum is_treated seen
   - group_sum is_control seen
     * safe_ratio (group_count is_treated seen)
                  (group_count is_control seen))%Q.

(** The Qini total computed directly over a whole population. *)
Definition qini_total (rows : list subject) : Q :=
  (group_sum is_treated rows
   - group_sum is_control rows
     * safe_ratio (group_count is_treated rows)
                  (group_count is_control rows))%Q.

Definition binary (rows : list subject) : Prop :=
  Forall (fun r => treated r = 0 \/ treated r = 1) rows.

Definition binary_labels (t : list Z) : Prop :=
  Forall (fun z => z = 0 \/ z = 1) t.

Definition zip3 (y u : list Q) (t : list Z) : list subject :=
  map (fun r => {| outcome := fst r; score := fst (snd r);
                   treated := snd (snd r) |})
      (combine y (combine u t)).

(** ** Order of a ranking *)

Definition score_of (u : list Q) (i : Z) : Q := nth (Z.to_nat i) u 0%Q.

(** An index array that reads the scores in ascending order. *)
Definition ascending (u : list Q) (idx : list nat) : Prop :=
  forall i j, (i < j < length idx)%nat ->
    (nth (nth i idx 0%nat) u 0 <= nth (nth j idx 0%nat) u 0)%Q.

(** The subject at rank [i] scores at least as high as the one at rank [j]
    whenever [i] comes first. *)
Definition descending (u : list Q) (idx : list Z) : Prop :=
  forall i j, (i < j < length idx)%nat ->
    (score_of u (nth j idx 0%Z) <= score_of u (nth i idx 0%Z))%Q.

(** Subjects with equal scores are ranked in the order of the input. *)
Definition ties_in_input_order (u : list Q) (idx : list Z) : Prop :=
  forall i j, (i < j < length idx)%nat ->
    (score_of u (nth i idx 0%Z) == score_of u (nth j idx 0%Z))%Q ->
    nth i idx 0 < nth j idx 0.

(** Subjects with equal scores are ranked against the order of the input. *)
Definition ties_in_reverse_input_order (u : list Q) (idx : list Z) : Prop :=
  forall i j, (i < j < length idx)%nat ->
    (score_of u (nth i idx 0%Z) == score_of u (nth j idx 0%Z))%Q ->
    nth j idx 0 < nth i idx 0.

(** ** The window parameter and the errors of [uplift_at_k] *)

(** A window parameter the function accepts: an integer strictly between
    0 and the number of samples, or a fraction strictly between 0 and 1. *)
Definition k_valid (k : kparam) (n_samples : Z) : Prop :=
  match k with
  | KInt z => 0 < z < n_samples
  | KFloat q => (0 < q /\ q < 1)%Q
  | KOther _ => False
  end.

Definition k_domain_error (r : result fval) : Prop :=
  r = Raise (ValueError KOutOfRange) \/ r = Raise (ValueError KInvalidKind).

Definition group_capacity_error (r : result fval) : Prop :=
  r = Raise (ValueError GroupTooSmallCtrl) \/
  r = Raise (ValueError GroupTooSmallTrmnt).

Definition range_error (r : result fval) : Prop :=
  k_domain_error r \/ group_capacity_error r.

(** The arithmetic mean of the outcomes of one group over a whole
    population. *)
Definition group_mean (g : subject -> bool) (rows : list subject) : fval :=
  mean (map outcome (filter g rows)).

Definition overall_uplift (y u : list Q) (t : list Z) : fval :=
  fsub (group_mean is_treated (zip3 y u t))
       (group_mean is_control (zip3 y u t)).

(** ** Whole populations and score thresholds *)

(** (treated mean - control mean) * size, over a whole population. *)
Definition uplift_total (rows : list subject) : Q :=
  ((safe_mean (group_sum is_treated rows) (group_count is_treated rows)
    - safe_mean (group_sum is_control rows) (group_count is_control rows))
   * Qnat (length rows))%Q.

(** A placeholder row for positions past the end. *)
Definition no_subject : subject :=
  {| outcome := 0; score := 0; treated := 0 |}.

(** The subjects whose score is at least [s]. *)
Definition scoring_at_least (s : Q) (rows : list subject) : list subject :=
  filter (fun r => Qle_bool s (score r)) rows.

(** A map of the scores that keeps their order. *)
Definition order_embedding (f : Q -> Q) : Prop :=
  forall a b, Qle_bool (f a) (f b) = Qle_bool a b.

(** ** The top-k windows *)

(** A rounding that changes nothing: unbounded precision. *)
Definition unrounded (x : Q) : Q := x.

(** What a window [ceil(n * k)] needs of the rounding when [k] is a
    float: rounding keeps the order of the reals, and it leaves alone the
    two factors, which are floats already, [k] and the count [n]. *)
Definition rounds_to_nearest (round64 : Q -> Q) (n : Z) (k : kparam)
  : Prop :=
  match k with
  | KFloat q =>
      (forall x x', (x <= x')%Q -> (round64 x <= round64 x')%Q) /\
      (round64 q == q)%Q /\
      (round64 (inject_Z n) == inject_Z n)%Q
  | _ => True
  end.

(** The subjects in the order [uplift_at_k] ranks them. *)
Definition at_k_rows (argsort_default : list Q -> list nat)
    (y u : list Q) (t : list Z) : list subject :=
  map (fun i => {| outcome := nth i y 0%Q;
                   score := nth i u 0%Q;
                   treated := nth i t 0 |})
      (rev (argsort_default u)).

(** The index array lists every input position once. *)
Definition sorts_positions (argsort_default : list Q -> list nat)
    (u : list Q) : Prop :=
  Permutation (argsort_default u) (seq 0 (length u)).

(** The best [n] subjects of one group, in ranking order. *)
Definition group_top (g : subject -> bool) (n : Z) (rows : list subject)
  : list subject :=
  firstn (Z.to_nat n) (filter g rows).

(** ** Integrating a curve *)

Definition fadd := flift2 Qplus.

(** The trapezoidal rule over the points [(x, y)]: the sum over
    consecutive points of [(x' - x) * (y + y') / 2]. *)
Fixpoint trapezoid (x : list Z) (y : list fval) : fval :=
  match x, y with
  | x0 :: ((x1 :: _) as xs), y0 :: ((y1 :: _) as ys) =>
      fadd (fmul (Finite (inject_Z (x1 - x0) / 2)) (fadd y0 y1))
           (trapezoid xs ys)
  | _, _ => Finite 0
  end.

(** * Facts about the primitives *)

(** ** The stable sort *)

Section SortFacts.
Context {A : Type} (le : A -> A -> bool).

Lemma insert_perm (x : A) (l : list A) :
  Permutation (insert le x l) (x :: l).
Proof.
  induction l as [|y l IH]; simpl; [reflexivity|].
  destruct (le x y); [reflexivity|].
  rewrite IH. apply perm_swap.
Qed.

Lemma sort_perm (l : list A) : Permutation (sort le l) l.
Proof.
  induction l as [|x l IH]; simpl; [reflexivity|].
  rewrite insert_perm. now constructor.
Qed.

Lemma sort_length (l : list A) : length (sort le l) = length l.
Proof. apply Permutation_length, sort_perm. Qed.
End SortFacts.

Lemma lex_lt_le p q : lex_lt p q -> (snd p <= snd q)%Q.
Proof.
  intros [H|[H _]]; [now apply Qlt_le_weak | rewrite H; apply Qle_refl].
Qed.

Lemma le_pos_lex_lt p q :
  (snd p <= snd q)%Q -> (fst p < fst q)%nat -> lex_lt p q.
Proof.
  intros Hle Hlt. destruct (Qle_lt_or_eq _ _ Hle) as [H|H];
    [now left | now right].
Qed.

Lemma insert_sorted x l :
  StronglySorted lex_lt l ->
  Forall (fun p => (fst x < fst p)%nat) l ->
  StronglySorted lex_lt (insert key_le x l).
Proof.
  induction l as [|y l IH]; intros Hs Hp; simpl.
  - repeat constructor.
  - apply StronglySorted_inv in Hs as [Hs Hy].
    inversion Hp as [|? ? Hxy Hp']; subst.
    unfold key_le at 1. destruct (Qle_bool (snd x) (snd y)) eqn:E.
    + apply Qle_bool_iff in E.
      constructor; [now constructor|].
      constructor; [now apply le_pos_lex_lt|].
      rewrite Forall_forall in *. intros z Hz.
      apply le_pos_lex_lt; [|now apply Hp'].
      eapply Qle_trans; [exact E | apply lex_lt_le; now apply Hy].
    + constructor; [now apply IH|].
      assert (Hyx : (snd y < snd x)%Q).
      { apply Qnot_le_lt. intro H. apply Qle_bool_iff in H. congruence. }
      eapply Permutation_Forall; [symmetry; apply insert_perm|].
      constructor; [now left | exact Hy].
  Qed.

Lemma in_combine_seq_lb {B} (s n : nat) (b : list B) p :
  In p (combine (seq s n) b) -> (s <= fst p)%nat.
Proof.
  destruct p as [i v]. intro H. apply in_combine_l in H.
  apply in_seq in H. simpl. lia.
Qed.

Lemma sort_combine_sorted (a : list Q) (s : nat) :
  StronglySorted lex_lt (sort key_le (combine (seq s (length a)) a)).
Proof.
  revert s. induction a as [|x a IH]; intro s; simpl; [constructor|].
  apply insert_sorted; [apply IH|].
  eapply Permutation_Forall; [symmetry; apply sort_perm|].
  apply Forall_forall. intros p Hp. apply in_combine_seq_lb in Hp.
  simpl. lia.
Qed.

Lemma map_fst_enumerate (a : list Q) :
  map fst (enumerate a) = seq 0 (length a).
Proof.
  unfold enumerate. generalize 0%nat.
  induction a as [|x a IH]; intro s; simpl; [reflexivity|].
  now rewrite IH.
Qed.

Lemma argsort_perm (a : list Q) :
  Permutation (argsort a) (seq 0 (length a)).
Proof.
  unfold argsort. rewrite <- map_fst_enumerate.
  apply Permutation_map, sort_perm.
Qed.

Lemma argsort_length (a : list Q) : length (argsort a) = length a.
Proof.
  rewrite (Permutation_length (argsort_perm a)). apply length_seq.
Qed.

Lemma argsort_bound (a : list Q) i :
  In i (argsort a) -> (i < length a)%nat.
Proof.
  intro H. eapply Permutation_in in H; [|apply argsort_perm].
  apply in_seq in H. lia.
Qed.

Lemma enumerate_nth (a : list Q) p :
  In p (enumerate a) -> nth (fst p) a 0%Q = snd p.
Proof.
  unfold enumerate. intro H.
  assert (G : forall s, In p (combine (seq s (length a)) a) ->
                        nth (fst p - s) a 0%Q = snd p /\ (s <= fst p)%nat).
  { clear H. induction a as [|x a IH]; intros s H; simpl in H; [easy|].
    destruct H as [H|H].
    - subst p. simpl. now rewrite Nat.sub_diag.
    - destruct (IH _ H) as [H1 H2]. split; [|lia].
      replace (fst p - s)%nat with (S (fst p - S s)) by lia. exact H1. }
  destruct (G 0%nat H) as [G1 _]. now rewrite Nat.sub_0_r in G1.
Qed.

(** The scores read through [argsort] are the sorted scores. *)
Lemma argsort_scores (a : list Q) :
  map (fun i => nth i a 0%Q) (argsort a) =
  map snd (sort key_le (enumerate a)).
Proof.
  unfold argsort. rewrite map_map. apply map_ext_in.
  intros p Hp. apply enumerate_nth.
  eapply Permutation_in; [apply sort_perm | exact Hp].
Qed.

Lemma StronglySorted_nth {A} (R : A -> A -> Prop) (l : list A) d i j :
  StronglySorted R l -> (i < j < length l)%nat ->
  R (nth i l d) (nth j l d).
Proof.
  intro H. revert i j. induction H as [|x l Hs IH Hx]; intros i j Hij.
  - simpl in Hij. lia.
  - destruct j as [|j]; [lia|]. simpl in Hij. destruct i as [|i]; simpl.
    + rewrite Forall_forall in Hx. apply Hx, nth_In. lia.
    + apply IH. lia.
Qed.

Lemma ranked_pairs_length u : length (ranked_pairs u) = length u.
Proof.
  unfold ranked_pairs. rewrite length_rev, sort_length.
  unfold enumerate. rewrite length_combine, length_seq. lia.
Qed.

Lemma ranked_pairs_fst u : map fst (ranked_pairs u) = rev (argsort u).
Proof. unfold ranked_pairs, argsort. now rewrite map_rev. Qed.

Lemma ranked_pairs_snd u :
  map snd (ranked_pairs u) = map (fun i => nth i u 0%Q) (rev (argsort u)).
Proof.
  unfold ranked_pairs. now rewrite map_rev, <- argsort_scores, map_rev.
Qed.

Lemma ranked_pairs_desc u d i j :
  (i < j < length u)%nat ->
  lex_lt (nth j (ranked_pairs u) d) (nth i (ranked_pairs u) d).
Proof.
  intro H. unfold ranked_pairs.
  pose proof (sort_length key_le (enumerate u)) as L.
  assert (Le : length (enumerate u) = length u).
  { unfold enumerate. rewrite length_combine, length_seq. lia. }
  rewrite !rev_nth by lia.
  apply StronglySorted_nth; [apply sort_combine_sorted | lia].
Qed.

(** ** Indexing *)

Lemma getitem_ok {A} (a : list A) (i : Z) d :
  0 <= i < Z.of_nat (length a) ->
  getitem a i = Ok (nth (Z.to_nat i) a d).
Proof.
  intro H. unfold getitem.
  destruct (Z.ltb_spec i 0); [lia|].
  destruct (Z.leb_spec 0 i); [|lia].
  destruct (Z.ltb_spec i (Z.of_nat (length a))); [|lia]. simpl.
  destruct (nth_error a (Z.to_nat i)) eqn:E.
  - now rewrite (nth_error_nth _ _ d E).
  - apply nth_error_None in E. lia.
Qed.

Lemma take_ok {A} (a : list A) (idx : list Z) d :
  Forall (fun i => 0 <= i < Z.of_nat (length a)) idx ->
  take a idx = Ok (map (fun i => nth (Z.to_nat i) a d) idx).
Proof.
  unfold take. induction 1 as [|i idx Hi _ IH]; simpl; [reflexivity|].
  now rewrite (getitem_ok a i d Hi), IH.
Qed.

Lemma take_nat_ok {A} (a : list A) (idx : list nat) d :
  Forall (fun i => (i < length a)%nat) idx ->
  take a (map Z.of_nat idx) = Ok (map (fun i => nth i a d) idx).
Proof.
  intro H. rewrite (take_ok a _ d).
  - rewrite map_map. f_equal. apply map_ext. intro i.
    now rewrite Nat2Z.id.
  - apply Forall_map. eapply Forall_impl; [|exact H]. simpl. lia.
Qed.

Lemma getitem_empty {A} (i : Z) : getitem (@nil A) i = Raise IndexError.
Proof.
  unfold getitem. simpl. destruct (i <? 0) eqn:E.
  - rewrite Z.add_0_r. destruct (Z.leb_spec 0 i); [|reflexivity].
    apply Z.ltb_lt in E. lia.
  - destruct (0 <=? i); simpl; [|reflexivity].
    destruct (Z.ltb_spec i 0); [lia | reflexivity].
Qed.

Lemma getitem_raise {A} (a : list A) (i : Z) e :
  getitem a i = Raise e -> e = IndexError.
Proof.
  unfold getitem. destruct (_ && _); [|congruence].
  destruct (nth_error _ _); congruence.
Qed.

Lemma take_raise {A} (a : list A) (idx : list Z) e :
  take a idx = Raise e -> e = IndexError.
Proof.
  unfold take. induction idx as [|i idx IH]; simpl; [discriminate|].
  destruct (getitem a i) eqn:E; simpl.
  - destruct (mapM (getitem a) idx); simpl; [discriminate|].
    intro H. apply IH. congruence.
  - intro H. apply (getitem_raise a i). congruence.
Qed.

(** ** Elementwise operations over one index array *)

Lemma map2_map {A B C D} (f : B -> C -> D) (g : A -> B) (h : A -> C) l :
  map2 f (map g l) (map h l) = map (fun x => f (g x) (h x)) l.
Proof. induction l; simpl; congruence. Qed.

Lemma divide_where_map {A} (f g : A -> Q) (l : list A) :
  divide_where (map f l) (map g l) (zeros_like (map f l)) (ne0 (map g l)) =
  map (fun x => Finite (guarded_div (f x) (g x))) l.
Proof.
  induction l as [|x l IH]; simpl; [reflexivity|].
  unfold zeros_like, ne0 in *. simpl. rewrite IH. f_equal.
  unfold guarded_div, fdiv. now destruct (Qeq_bool (g x) 0).
Qed.

Lemma guarded_div_comp a a' b b' :
  (a == a')%Q -> (b == b')%Q -> (guarded_div a b == guarded_div a' b')%Q.
Proof.
  intros Ha Hb. unfold guarded_div.
  destruct (Qeq_bool b 0) eqn:E, (Qeq_bool b' 0) eqn:E'.
  - reflexivity.
  - apply Qeq_bool_iff in E. rewrite Hb in E.
    apply Qeq_bool_iff in E. congruence.
  - apply Qeq_bool_iff in E'. rewrite <- Hb in E'.
    apply Qeq_bool_iff in E'. congruence.
  - now rewrite Ha, Hb.
Qed.

(** ** Running sums *)

Lemma cumsum_from_length acc a : length (cumsum_from acc a) = length a.
Proof. revert acc. induction a; intro; simpl; congruence. Qed.

Lemma cumsum_length a : length (cumsum a) = length a.
Proof. apply cumsum_from_length. Qed.

Lemma cumsum_from_nth acc a (p : nat) :
  (p < length a)%nat ->
  (nth p (cumsum_from acc a) 0 == acc + sum (firstn (S p) a))%Q.
Proof.
  revert acc p. induction a as [|x a IH]; intros acc p H; simpl in H.
  - lia.
  - destruct p as [|p].
    + simpl. ring.
    + change (nth (S p) (cumsum_from acc (x :: a)) 0%Q)
        with (nth p (cumsum_from (acc + x) a) 0%Q).
      rewrite IH by lia.
      change (sum (firstn (S (S p)) (x :: a)))
        with (x + sum (firstn (S p) a))%Q.
      ring.
Qed.

Lemma cumsum_nth a (p : nat) :
  (p < length a)%nat -> (nth p (cumsum a) 0 == sum (firstn (S p) a))%Q.
Proof.
  intro H. unfold cumsum. rewrite cumsum_from_nth by exact H. ring.
Qed.

Lemma sum_perm a b : Permutation a b -> (sum a == sum b)%Q.
Proof.
  induction 1; simpl; try reflexivity.
  - now rewrite IHPermutation.
  - ring.
  - now rewrite IHPermutation1.
Qed.

(** ** Threshold positions *)

Lemma diff_length a : length (diff a) = (length a - 1)%nat.
Proof.
  induction a as [|x [|y a] IH]; simpl in *; try reflexivity.
  rewrite IH. lia.
Qed.

Lemma diff_nth a (i : nat) :
  (S i < length a)%nat ->
  nth i (diff a) 0%Q = (nth (S i) a 0 - nth i a 0)%Q.
Proof.
  revert i. induction a as [|x [|y a] IH]; intros i H; simpl in H; try lia.
  destruct i as [|i]; [reflexivity|].
  change (nth (S i) (diff (x :: y :: a)) 0%Q) with (nth i (diff (y :: a)) 0%Q).
  rewrite IH by (simpl; lia). reflexivity.
Qed.

Lemma nonzero_from_in s a z :
  In z (nonzero_from s a) <->
  s <= z < s + Z.of_nat (length a) /\
  ~ (nth (Z.to_nat (z - s)) a 0 == 0)%Q.
Proof.
  revert s. induction a as [|x a IH]; intro s; simpl.
  - split; [easy | lia].
  - assert (Hx : Qeq_bool x 0 = true <-> (x == 0)%Q) by apply Qeq_bool_iff.
    assert (Hstep : z <> s ->
              (In z (nonzero_from (s + 1) a) <->
               s <= z < s + Z.pos (Pos.of_succ_nat (length a)) /\
               ~ (match Z.to_nat (z - s) with
                  | O => x | S m => nth m a 0%Q end == 0)%Q)).
    { intro Hne. rewrite IH. split; intros [H1 H2].
      - split; [lia|].
        replace (Z.to_nat (z - s)) with (S (Z.to_nat (z - (s + 1)))) by lia.
        exact H2.
      - split; [lia|].
        replace (Z.to_nat (z - s)) with (S (Z.to_nat (z - (s + 1)))) in H2
          by lia.
        exact H2. }
    destruct (Qeq_bool x 0) eqn:E.
    + destruct (Z.eq_dec z s) as [->|Hne]; [|now apply Hstep].
      split.
      * intro H. apply IH in H. lia.
      * intros [_ H]. rewrite Z.sub_diag in H. simpl in H.
        exfalso. apply H. now apply Hx.
    + simpl. destruct (Z.eq_dec z s) as [->|Hne].
      * split; [|now left]. intros _. split; [lia|].
        rewrite Z.sub_diag. simpl. intro H. apply Hx in H. congruence.
      * rewrite <- Hstep by exact Hne. split; [|now right].
        intros [H|H]; [congruence | exact H].
Qed.

Lemma nonzero_from_sorted s a : StronglySorted Z.lt (nonzero_from s a).
Proof.
  revert s. induction a as [|x a IH]; intro s; simpl; [constructor|].
  destruct (Qeq_bool x 0); [apply IH|].
  constructor; [apply IH|].
  apply Forall_forall. intros z Hz. apply nonzero_from_in in Hz. lia.
Qed.

Lemma StronglySorted_snoc {A} (R : A -> A -> Prop) l y :
  StronglySorted R l -> Forall (fun x => R x y) l ->
  StronglySorted R (l ++ [y]).
Proof.
  induction 1 as [|x l Hs IH Hx]; intro Hy; simpl.
  - repeat constructor.
  - inversion Hy; subst. constructor; [now apply IH|].
    apply Forall_app. split; [exact Hx | now repeat constructor].
Qed.

Lemma threshold_indices_in (a : list Q) z :
  a <> [] ->
  In z (threshold_indices a) <->
  exists i, z = Z.of_nat i /\ run_end a i.
Proof.
  intro Hne. assert (Hlen : (0 < length a)%nat).
  { destruct a; [congruence | simpl; lia]. }
  unfold threshold_indices, where_nonzero, run_end.
  rewrite in_app_iff, nonzero_from_in, diff_length. simpl.
  split.
  - intros [[H1 H2]|[H|[]]].
    + exists (Z.to_nat z). split; [lia|]. split; [lia|]. right.
      rewrite Z.sub_0_r in H2. rewrite diff_nth in H2 by lia.
      intro H. apply H2. rewrite H. ring.
    + exists (length a - 1)%nat. split; [lia|]. split; lia.
  - intros [i [-> [Hi [H|H]]]].
    + right. left. lia.
    + destruct (Nat.eq_dec (S i) (length a)) as [e|ne];
        [right; left; lia|].
      left. split; [lia|]. rewrite Z.sub_0_r, Nat2Z.id.
      rewrite diff_nth by lia. intro G. apply H.
      assert (E : (nth i a 0 ==
                   nth i a 0 + (nth (S i) a 0 - nth i a 0))%Q)
        by (rewrite G; ring).
      rewrite E. ring.
Qed.

Lemma threshold_indices_sorted (a : list Q) :
  StronglySorted Z.lt (threshold_indices a).
Proof.
  unfold threshold_indices, where_nonzero.
  apply StronglySorted_snoc; [apply nonzero_from_sorted|].
  apply Forall_forall. intros z Hz. apply nonzero_from_in in Hz.
  rewrite diff_length in Hz. lia.
Qed.

Lemma threshold_indices_bound (a : list Q) :
  a <> [] ->
  Forall (fun z => 0 <= z < Z.of_nat (length a)) (threshold_indices a).
Proof.
  intro Hne. apply Forall_forall. intros z Hz.
  apply threshold_indices_in in Hz; [|exact Hne].
  destruct Hz as [i [-> [Hi _]]]. lia.
Qed.

(** * The curve builders on a well-formed input *)

Lemma ranked_length y u t : length (ranked y u t) = length u.
Proof.
  unfold ranked. now rewrite length_map, length_rev, argsort_length.
Qed.

Lemma ranked_scores y u t :
  map score (ranked y u t) = map snd (ranked_pairs u).
Proof.
  unfold ranked. rewrite map_map. simpl. now rewrite ranked_pairs_snd.
Qed.

Lemma add_origin_thresholds (thr : list Z) (g : Z -> fval) :
  thr <> [] -> Forall (fun z => 0 <= z) thr ->
  add_origin (map (fun i => i + 1) thr) (map g thr) =
  Ok (0 :: map (fun i => i + 1) thr, Finite 0 :: map g thr).
Proof.
  intros Hne Hpos. destruct thr as [|x thr]; [congruence|].
  inversion Hpos; subst.
  unfold add_origin, off_origin, getitem. cbn.
  destruct (fnonzero (g x)); cbn; [reflexivity|].
  destruct (Z.eqb_spec (x + 1) 0); [lia | reflexivity].
Qed.

Section WellFormed.
Variables (y u : list Q) (t : list Z).
Hypothesis nonempty : u <> [].
Hypothesis len_y : (length u <= length y)%nat.
Hypothesis len_t : (length u <= length t)%nat.

Let rows := ranked y u t.
Let thr := threshold_indices (map score rows).

Lemma desc_bound n :
  (length u <= n)%nat -> Forall (fun i => (i < n)%nat) (rev (argsort u)).
Proof.
  intro Hn. apply Forall_forall. intros i Hi. apply in_rev in Hi.
  apply argsort_bound in Hi. lia.
Qed.

Lemma scores_nonempty : map score rows <> [].
Proof.
  intro H. apply (f_equal (@length Q)) in H.
  subst rows. rewrite length_map, ranked_length in H.
  destruct u; [congruence | discriminate].
Qed.

Lemma thr_bound :
  Forall (fun z => 0 <= z < Z.of_nat (length u)) thr.
Proof.
  pose proof (threshold_indices_bound _ scores_nonempty) as H.
  subst thr rows. now rewrite length_map, ranked_length in H.
Qed.

Lemma thr_nonempty : thr <> [].
Proof.
  subst thr. unfold threshold_indices. now destruct (where_nonzero _).
Qed.

Lemma thr_cumsum_bound (a : list Q) :
  length a = length u ->
  Forall (fun z => 0 <= z < Z.of_nat (length (cumsum a))) thr.
Proof. intro H. rewrite cumsum_length, H. apply thr_bound. Qed.

Lemma views_of_ranked :
  map (fun i => nth i y 0%Q) (rev (argsort u)) = map outcome rows /\
  map (fun i => nth i u 0%Q) (rev (argsort u)) = map score rows /\
  map (fun i => nth i t 0) (rev (argsort u)) = map treated rows.
Proof. subst rows. unfold ranked. now rewrite !map_map. Qed.

Lemma masks_of_ranked :
  masked_fill (map outcome rows) (map (Z.eqb 1) (map treated rows)) 0
    = ctrl_view rows /\
  masked_fill (map outcome rows) (map (Z.eqb 0) (map treated rows)) 0
    = trmnt_view rows.
Proof.
  unfold masked_fill. rewrite !map_map.
  now rewrite !(map2_map (fun x (m : bool) => if m then 0%Q else x)).
Qed.

Lemma uplift_curve_run :
  uplift_curve y u t =
  Ok (0 :: map (fun p => p + 1) thr,
      Finite 0 :: map (fun p => Finite (uplift_value rows p)) thr).
Proof.
  unfold uplift_curve, desc_score_indices.
  destruct views_of_ranked as [Vy [Vu Vt]].
  destruct masks_of_ranked as [Mc Mt].
  rewrite (take_nat_ok y _ 0%Q), (take_nat_ok u _ 0%Q),
    (take_nat_ok t _ 0) by (apply desc_bound; lia).
  cbn [bind]. rewrite Vy, Vu, Vt, Mc, Mt. fold thr.
  assert (Lr : length rows = length u) by apply ranked_length.
  rewrite (take_ok (cumsum (Qarr (map treated rows))) thr 0%Q),
    (take_ok (cumsum (trmnt_view rows)) thr 0%Q),
    (take_ok (cumsum (ctrl_view rows)) thr 0%Q)
    by (apply thr_cumsum_bound; unfold Qarr, trmnt_view, ctrl_view;
        now rewrite !length_map).
  cbn [bind]. rewrite map2_map, !divide_where_map, map2_map.
  unfold Farr. rewrite map_map, map2_map.
  rewrite add_origin_thresholds;
    [ | apply thr_nonempty
      | eapply Forall_impl; [|apply thr_bound]; simpl; lia ].
  unfold Qarr. rewrite map_map. reflexivity.
Qed.

Lemma qini_curve_run :
  qini_curve y u t =
  Ok (0 :: map (fun p => p + 1) thr,
      Finite 0 :: map (fun p => Finite (qini_value rows p)) thr).
Proof.
  unfold qini_curve, desc_score_indices.
  destruct views_of_ranked as [Vy [Vu Vt]].
  destruct masks_of_ranked as [Mc Mt].
  rewrite (take_nat_ok y _ 0%Q), (take_nat_ok t _ 0),
    (take_nat_ok u _ 0%Q) by (apply desc_bound; lia).
  cbn [bind]. rewrite Vy, Vu, Vt, Mc, Mt. fold thr.
  assert (Lr : length rows = length u) by apply ranked_length.
  rewrite (take_ok (cumsum (Qarr (map treated rows))) thr 0%Q),
    (take_ok (cumsum (trmnt_view rows)) thr 0%Q),
    (take_ok (cumsum (ctrl_view rows)) thr 0%Q)
    by (apply thr_cumsum_bound; unfold Qarr, trmnt_view, ctrl_view;
        now rewrite !length_map).
  cbn [bind]. rewrite map2_map, !divide_where_map.
  rewrite !map_map, !map2_map.
  rewrite add_origin_thresholds;
    [ | apply thr_nonempty
      | eapply Forall_impl; [|apply thr_bound]; simpl; lia ].
  unfold Qarr. rewrite map_map. reflexivity.
Qed.
End WellFormed.

(** * From the running sums to the group means *)

Lemma Forall_firstn {A} (P : A -> Prop) (l : list A) n :
  Forall P l -> Forall P (firstn n l).
Proof.
  intro H. revert n. induction H; intros [|n]; simpl; constructor; auto.
Qed.

Lemma Qnat_succ n : (Qnat (S n) == 1 + Qnat n)%Q.
Proof.
  unfold Qnat. rewrite Nat2Z.inj_succ, <- Z.add_1_l, inject_Z_plus.
  reflexivity.
Qed.

Lemma trmnt_view_sum rows :
  binary rows -> (sum (trmnt_view rows) == group_sum is_treated rows)%Q.
Proof.
  unfold group_sum, is_treated.
  induction 1 as [|r rows [H|H] _ IH]; simpl; [reflexivity| |];
    rewrite H; simpl; rewrite IH; ring.
Qed.

Lemma ctrl_view_sum rows :
  binary rows -> (sum (ctrl_view rows) == group_sum is_control rows)%Q.
Proof.
  unfold group_sum, is_control.
  induction 1 as [|r rows [H|H] _ IH]; simpl; [reflexivity| |];
    rewrite H; simpl; rewrite IH; ring.
Qed.

Lemma labels_sum rows :
  binary rows ->
  (sum (labels rows) == Qnat (group_count is_treated rows))%Q.
Proof.
  unfold group_count, is_treated.
  induction 1 as [|r rows [H|H] _ IH]; [reflexivity| |];
    cbn [labels map sum fold_right filter]; fold (sum (labels rows));
    rewrite H, IH; cbn [Z.eqb Pos.eqb length].
  - ring.
  - rewrite Qnat_succ. reflexivity.
Qed.

Lemma group_count_split rows :
  binary rows ->
  (group_count is_treated rows + group_count is_control rows)%nat
  = length rows.
Proof.
  unfold group_count, is_treated, is_control.
  induction 1 as [|r rows [H|H] _ IH]; simpl; [reflexivity| |];
    rewrite H; simpl; lia.
Qed.

Lemma guarded_div_safe_mean s c : guarded_div s (Qnat c) = safe_mean s c.
Proof. unfold guarded_div, safe_mean. now destruct c. Qed.

Lemma guarded_div_safe_ratio a b :
  guarded_div (Qnat a) (Qnat b) = safe_ratio a b.
Proof. unfold guarded_div, safe_ratio. now destruct b. Qed.

Section Bridge.
Variables (rows : list subject) (p : nat).
Hypothesis rows_binary : binary rows.
Hypothesis in_range : (p < length rows)%nat.

Let seen := so_far rows p.

Lemma seen_binary : binary seen.
Proof. now apply Forall_firstn. Qed.

Lemma seen_length : length seen = S p.
Proof. subst seen. unfold so_far. rewrite length_firstn. lia. Qed.

Lemma y_trmnt_at_spec :
  (y_trmnt_at rows (Z.of_nat p) == group_sum is_treated seen)%Q.
Proof.
  unfold y_trmnt_at, at_pos. rewrite Nat2Z.id.
  rewrite cumsum_nth by (unfold trmnt_view; now rewrite length_map).
  unfold trmnt_view at 1. rewrite firstn_map.
  apply (trmnt_view_sum seen seen_binary).
Qed.

Lemma y_ctrl_at_spec :
  (y_ctrl_at rows (Z.of_nat p) == group_sum is_control seen)%Q.
Proof.
  unfold y_ctrl_at, at_pos. rewrite Nat2Z.id.
  rewrite cumsum_nth by (unfold ctrl_view; now rewrite length_map).
  unfold ctrl_view at 1. rewrite firstn_map.
  apply (ctrl_view_sum seen seen_binary).
Qed.

Lemma num_trmnt_at_spec :
  (num_trmnt_at rows (Z.of_nat p) == Qnat (group_count is_treated seen))%Q.
Proof.
  unfold num_trmnt_at, at_pos. rewrite Nat2Z.id.
  rewrite cumsum_nth by (unfold labels; now rewrite length_map).
  unfold labels at 1. rewrite firstn_map.
  apply (labels_sum seen seen_binary).
Qed.

Lemma num_all_at_spec : inject_Z (Z.of_nat p + 1) = Qnat (S p).
Proof. unfold Qnat. f_equal. lia. Qed.

Lemma num_ctrl_at_spec :
  (num_ctrl_at rows (Z.of_nat p) == Qnat (group_count is_control seen))%Q.
Proof.
  unfold num_ctrl_at. rewrite num_trmnt_at_spec, num_all_at_spec.
  rewrite <- seen_length, <- (group_count_split seen seen_binary).
  unfold Qnat. rewrite Nat2Z.inj_add, inject_Z_plus. ring.
Qed.

Lemma uplift_value_spec :
  (uplift_value rows (Z.of_nat p) == spec_uplift_value rows p)%Q.
Proof.
  unfold uplift_value, spec_uplift_value. fold seen.
  rewrite num_all_at_spec.
  rewrite (guarded_div_comp _ _ _ _ y_trmnt_at_spec num_trmnt_at_spec).
  rewrite (guarded_div_comp _ _ _ _ y_ctrl_at_spec num_ctrl_at_spec).
  now rewrite !guarded_div_safe_mean.
Qed.

Lemma qini_value_spec :
  (qini_value rows (Z.of_nat p) == spec_qini_value rows p)%Q.
Proof.
  unfold qini_value, spec_qini_value. fold seen.
  rewrite (guarded_div_comp _ _ _ _ num_trmnt_at_spec num_ctrl_at_spec).
  rewrite y_trmnt_at_spec, y_ctrl_at_spec.
  now rewrite guarded_div_safe_ratio.
Qed.
End Bridge.

(** ** The ranked rows are the input rows, reordered *)

Lemma zip3_length y u t :
  length y = length u -> length t = length u ->
  length (zip3 y u t) = length u.
Proof.
  intros Hy Ht. unfold zip3. rewrite length_map, !length_combine. lia.
Qed.

Lemma zip3_nth y u t i :
  length y = length u -> length t = length u ->
  nth i (zip3 y u t) {| outcome := 0; score := 0; treated := 0 |} =
  {| outcome := nth i y 0%Q; score := nth i u 0%Q; treated := nth i t 0 |}.
Proof.
  intros Hy Ht. unfold zip3.
  change {| outcome := 0; score := 0; treated := 0 |}
    with ((fun r : Q * (Q * Z) =>
             {| outcome := fst r; score := fst (snd r);
                treated := snd (snd r) |}) (0%Q, (0%Q, 0))).
  rewrite map_nth, !combine_nth by (rewrite ?length_combine; lia).
  reflexivity.
Qed.

Lemma map_nth_seq {A} (l : list A) d :
  map (fun i => nth i l d) (seq 0 (length l)) = l.
Proof.
  induction l as [|x l IH]; simpl; [reflexivity|].
  f_equal. rewrite <- seq_shift, map_map. exact IH.
Qed.

Lemma ranked_perm y u t :
  length y = length u -> length t = length u ->
  Permutation (ranked y u t) (zip3 y u t).
Proof.
  intros Hy Ht. unfold ranked.
  rewrite (map_ext _ (fun i => nth i (zip3 y u t)
                        {| outcome := 0; score := 0; treated := 0 |}))
    by (intro i; now rewrite zip3_nth).
  transitivity
    (map (fun i => nth i (zip3 y u t)
                     {| outcome := 0; score := 0; treated := 0 |})
         (seq 0 (length (zip3 y u t)))).
  - apply Permutation_map. rewrite zip3_length by assumption.
    rewrite <- Permutation_rev. apply argsort_perm.
  - now rewrite map_nth_seq.
Qed.

Lemma ranked_binary y u t :
  (length u <= length t)%nat -> binary_labels t -> binary (ranked y u t).
Proof.
  intros Ht Hb. unfold binary, ranked. apply Forall_map, Forall_forall.
  intros i Hi. simpl. apply in_rev, argsort_bound in Hi.
  unfold binary_labels in Hb. rewrite Forall_forall in Hb.
  apply Hb, nth_In. lia.
Qed.

Lemma filter_perm {A} (f : A -> bool) l l' :
  Permutation l l' -> Permutation (filter f l) (filter f l').
Proof.
  induction 1 as [|x l l' _ IH|x x' l|l l' l'' _ IH1 _ IH2]; simpl.
  - constructor.
  - destruct (f x); [now constructor | exact IH].
  - destruct (f x), (f x'); try reflexivity. apply perm_swap.
  - now transitivity (filter f l').
Qed.

Lemma group_sum_perm g rows rows' :
  Permutation rows rows' -> (group_sum g rows == group_sum g rows')%Q.
Proof.
  intro H. apply sum_perm, Permutation_map, filter_perm, H.
Qed.

Lemma group_count_perm g rows rows' :
  Permutation rows rows' -> group_count g rows = group_count g rows'.
Proof. intro H. apply Permutation_length, filter_perm, H. Qed.

Lemma qini_total_perm rows rows' :
  Permutation rows rows' -> (qini_total rows == qini_total rows')%Q.
Proof.
  intro H. unfold qini_total.
  rewrite (group_sum_perm is_treated _ _ H),
    (group_sum_perm is_control _ _ H),
    (group_count_perm is_treated _ _ H),
    (group_count_perm is_control _ _ H).
  reflexivity.
Qed.

Lemma Forall2_map_same {A B C} (R : B -> C -> Prop)
    (f : A -> B) (g : A -> C) (l : list A) :
  Forall (fun x => R (f x) (g x)) l -> Forall2 R (map f l) (map g l).
Proof. induction 1; simpl; constructor; auto. Qed.

Lemma threshold_indices_last (a : list Q) d :
  last (threshold_indices a) d = Z.of_nat (length a) - 1.
Proof. unfold threshold_indices. apply last_last. Qed.

(** * The curve builders *)

Lemma threshold_positions (scores : list Q) (R : Z -> Prop) :
  scores <> [] ->
  (forall p : nat, (p < length scores)%nat -> R (Z.of_nat p)) ->
  Forall R (threshold_indices scores).
Proof.
  intros Hne H.
  pose proof (threshold_indices_bound scores Hne) as B.
  rewrite Forall_forall in *. intros z Hz. specialize (B z Hz).
  rewrite <- (Z2Nat.id z) by lia. apply H. lia.
Qed.

Lemma ranked_scores_nth y u t i :
  nth i (map score (ranked y u t)) 0%Q
  = snd (nth i (ranked_pairs u) (0%nat, 0%Q)).
Proof.
  rewrite ranked_scores.
  change 0%Q with (snd (0%nat, 0%Q)) at 1. apply map_nth.
Qed.

Lemma ranked_scores_desc y u t i j :
  (i <= j < length u)%nat ->
  (nth j (map score (ranked y u t)) 0 <= nth i (map score (ranked y u t)) 0)%Q.
Proof.
  intro H. rewrite !ranked_scores_nth.
  destruct (Nat.eq_dec i j) as [->|Hne]; [apply Qle_refl|].
  apply lex_lt_le, ranked_pairs_desc. lia.
Qed.

Lemma combine_map_same {A B C} (g : A -> B) (h : A -> C) (l : list A) :
  combine (map g l) (map h l) = map (fun x => (g x, h x)) l.
Proof. induction l; simpl; congruence. Qed.

(** C1.  On a non-empty input of equal lengths with 0/1 treatment labels,
    the ranked subjects are the input subjects in descending order of
    score, and [uplift_curve] returns, after the origin, exactly one point
    for each threshold position [p], the ranks that close a run of equal
    scores, the last rank among them.  The count of that point is [p + 1]
    and its value is (mean outcome of the treated so far - mean outcome of
    the controls so far) * (p + 1), each mean being sum / count over the
    first [p + 1] ranked subjects and exactly 0 when its count is 0.
    Every value is finite. *)
Theorem uplift_curve_values (y u : list Q) (t : list Z) :
  u <> [] -> length y = length u -> length t = length u ->
  binary_labels t ->
  let rows := ranked y u t in
  let scores := map score rows in
  Permutation rows (zip3 y u t) /\
  (forall i j, (i <= j < length u)%nat ->
               (nth j scores 0 <= nth i scores 0)%Q) /\
  exists counts values,
    uplift_curve y u t = Ok (0 :: counts, Finite 0 :: values) /\
    length values = length counts /\
    Forall is_finite values /\
    Forall2 (fun c v => exists p : nat,
               c = Z.of_nat (S p) /\ (p < length u)%nat /\
               feq v (Finite (spec_uplift_value rows p)))
            counts values /\
    (forall p : nat, run_end scores p ->
       exists v, In (Z.of_nat (S p), v) (combine counts values) /\
                 feq v (Finite (spec_uplift_value rows p))) /\
    (forall c, In c counts ->
       exists p : nat, c = Z.of_nat (S p) /\ run_end scores p) /\
    In (Z.of_nat (length u)) counts.
Proof.
  intros Hne Hy Ht Hb rows scores.
  split; [now apply ranked_perm|].
  split; [intros i j Hij; now apply ranked_scores_desc|].
  pose proof (uplift_curve_run y u t Hne) as Run.
  rewrite Run by lia. clear Run. fold rows. fold scores.
  assert (Hs : scores <> []) by (apply (scores_nonempty y u t Hne); lia).
  assert (Hr : binary rows) by (apply ranked_binary; [lia | exact Hb]).
  assert (Lr : length rows = length u) by apply ranked_length.
  assert (Last : run_end scores (length u - 1)).
  { unfold run_end, scores. rewrite length_map, Lr.
    destruct u; [congruence | simpl; lia]. }
  eexists. eexists. split; [reflexivity|].
  split; [now rewrite !length_map|].
  split; [apply Forall_map, Forall_forall; intros; exact I|].
  split; [|split; [|split]].
  - apply Forall2_map_same, threshold_positions; [exact Hs|].
    unfold scores. rewrite length_map, Lr. intros p Hp. exists p.
    split; [lia|]. split; [exact Hp|]. simpl.
    apply uplift_value_spec; [exact Hr | now rewrite Lr].
  - intros p Hp. rewrite combine_map_same.
    exists (Finite (uplift_value rows (Z.of_nat p))). split.
    + apply in_map_iff. exists (Z.of_nat p). split.
      * f_equal. lia.
      * apply threshold_indices_in; [exact Hs|]. now exists p.
    + simpl. apply uplift_value_spec; [exact Hr|].
      destruct Hp as [Hp _]. unfold scores in Hp.
      now rewrite length_map in Hp.
  - intros c Hc. apply in_map_iff in Hc. destruct Hc as [z [<- Hz]].
    apply threshold_indices_in in Hz; [|exact Hs].
    destruct Hz as [p [-> Hp]]. exists p. split; [lia | exact Hp].
  - apply in_map_iff. exists (Z.of_nat (length u - 1)). split.
    + destruct u; [congruence | simpl length; lia].
    + apply threshold_indices_in; [exact Hs|]. now exists (length u - 1)%nat.
Qed.

Lemma uplift_curve_values_witness :
  let rows := ranked [1; 0; 1]%Q [3; 2; 1]%Q [1; 0; 1] in
  let scores := map score rows in
  Permutation rows (zip3 [1; 0; 1]%Q [3; 2; 1]%Q [1; 0; 1]) /\
  (forall i j, (i <= j < 3)%nat ->
               (nth j scores 0 <= nth i scores 0)%Q) /\
  exists counts values,
    uplift_curve [1; 0; 1]%Q [3; 2; 1]%Q [1; 0; 1]
      = Ok (0 :: counts, Finite 0 :: values) /\
    length values = length counts /\
    Forall is_finite values /\
    Forall2 (fun c v => exists p : nat,
               c = Z.of_nat (S p) /\ (p < 3)%nat /\
               feq v (Finite (spec_uplift_value rows p)))
            counts values /\
    (forall p : nat, run_end scores p ->
       exists v, In (Z.of_nat (S p), v) (combine counts values) /\
                 feq v (Finite (spec_uplift_value rows p))) /\
    (forall c, In c counts ->
       exists p : nat, c = Z.of_nat (S p) /\ run_end scores p) /\
    In 3 counts.
Proof.
  apply (uplift_curve_values [1; 0; 1]%Q [3; 2; 1]%Q [1; 0; 1]).
  - discriminate.
  - reflexivity.
  - reflexivity.
  - repeat (apply Forall_cons; [lia|]). apply Forall_nil.
Defined.

Lemma so_far_all (rows : list subject) :
  so_far rows (length rows - 1) = rows \/ rows = [].
Proof.
  destruct rows as [|r rows]; [now right | left].
  unfold so_far. replace (S (length (r :: rows) - 1)) with
    (length (r :: rows)) by (simpl; lia).
  apply firstn_all.
Qed.

Lemma qini_final (y u : list Q) (t : list Z) :
  u <> [] -> length y = length u -> length t = length u ->
  binary_labels t ->
  exists counts values,
    qini_curve y u t = Ok (counts, values) /\
    feq (last values NonFinite) (Finite (qini_total (zip3 y u t))).
Proof.
  intros Hne Hy Ht Hb.
  pose proof (qini_curve_run y u t Hne) as Run.
  rewrite Run by lia. clear Run.
  eexists. eexists. split; [reflexivity|].
  set (rows := ranked y u t).
  assert (Lr : length rows = length u) by apply ranked_length.
  assert (Hrows : rows <> []).
  { intro E. rewrite E in Lr. destruct u; [congruence | discriminate]. }
  unfold threshold_indices. rewrite !map_app. simpl map.
  rewrite app_comm_cons, last_last. simpl.
  rewrite length_map, Lr.
  replace (Z.of_nat (length u) - 1) with (Z.of_nat (length u - 1)).
  2:{ destruct u; [congruence | simpl length; lia]. }
  rewrite qini_value_spec.
  - unfold spec_qini_value. rewrite <- Lr.
    destruct (so_far_all rows) as [E|E]; [rewrite E | congruence].
    change (qini_total rows == qini_total (zip3 y u t))%Q.
    apply qini_total_perm, ranked_perm; assumption.
  - apply ranked_binary; [lia | exact Hb].
  - rewrite Lr. destruct u; [congruence | simpl; lia].
Qed.

Lemma feq_trans a b c : feq a b -> feq b c -> feq a c.
Proof.
  destruct a, b, c; simpl; try easy. intros H1 H2. now rewrite H1.
Qed.

Lemma feq_sym a b : feq a b -> feq b a.
Proof. destruct a, b; simpl; try easy; intro H; now symmetry. Qed.

Lemma zip3_binary y u t :
  length y = length u -> length t = length u ->
  binary (zip3 y u t) -> binary_labels t.
Proof.
  intros Hy Ht H. unfold binary_labels. apply Forall_forall. intros z Hz.
  destruct (In_nth _ _ 0 Hz) as [i [Hi E]].
  assert (Hin : In (nth i (zip3 y u t)
                      {| outcome := 0; score := 0; treated := 0 |})
                   (zip3 y u t)).
  { apply nth_In. rewrite zip3_length by assumption. lia. }
  unfold binary in H. rewrite Forall_forall in H. specialize (H _ Hin).
  rewrite zip3_nth in H by assumption. simpl in H. now rewrite E in H.
Qed.

Lemma binary_zip3 y u t :
  length y = length u -> length t = length u ->
  binary_labels t -> binary (zip3 y u t).
Proof.
  intros Hy Ht H. unfold binary. apply Forall_forall. intros r Hr.
  destruct (In_nth _ _ {| outcome := 0; score := 0; treated := 0 |} Hr)
    as [i [Hi E]].
  rewrite zip3_nth in E by assumption. subst r. simpl.
  unfold binary_labels in H. rewrite Forall_forall in H.
  apply H, nth_In. rewrite zip3_length in Hi by assumption. lia.
Qed.

(** C3.  For a non-empty input with 0/1 treatment labels the last value
    [qini_curve] returns is the Qini total taken directly over the whole
    input: sum(outcome | treated) - sum(outcome | control) *
    (count_treated / count_control), the ratio being 0 when there is no
    control.  Reordering the three arrays by one common permutation leaves
    this last value unchanged. *)
Theorem qini_final_value (y u : list Q) (t : list Z)
    (y' u' : list Q) (t' : list Z) :
  u <> [] -> length y = length u -> length t = length u ->
  binary_labels t ->
  length y' = length u' -> length t' = length u' ->
  Permutation (zip3 y u t) (zip3 y' u' t') ->
  exists counts values counts' values',
    qini_curve y u t = Ok (counts, values) /\
    qini_curve y' u' t' = Ok (counts', values') /\
    feq (last values NonFinite) (Finite (qini_total (zip3 y u t))) /\
    feq (last values' NonFinite) (Finite (qini_total (zip3 y' u' t'))) /\
    feq (last values NonFinite) (last values' NonFinite).
Proof.
  intros Hne Hy Ht Hb Hy' Ht' Hp.
  assert (Hne' : u' <> []).
  { apply Permutation_length in Hp. rewrite !zip3_length in Hp by assumption.
    intro E. subst u'. destruct u; [congruence | discriminate]. }
  assert (Hb' : binary_labels t').
  { apply (zip3_binary y' u' t' Hy' Ht').
    eapply Permutation_Forall; [exact Hp|]. now apply binary_zip3. }
  destruct (qini_final y u t Hne Hy Ht Hb) as [c [v [E F]]].
  destruct (qini_final y' u' t' Hne' Hy' Ht' Hb') as [c' [v' [E' F']]].
  exists c, v, c', v'. repeat split; try assumption.
  eapply feq_trans; [exact F|]. apply feq_sym.
  eapply feq_trans; [exact F'|]. simpl.
  symmetry. now apply qini_total_perm.
Qed.

Lemma qini_final_value_witness :
  exists counts values counts' values',
    qini_curve [1; 0; 1]%Q [3; 2; 1]%Q [1; 0; 1] = Ok (counts, values) /\
    qini_curve [0; 1; 1]%Q [2; 1; 3]%Q [0; 1; 1] = Ok (counts', values') /\
    feq (last values NonFinite)
      (Finite (qini_total (zip3 [1; 0; 1]%Q [3; 2; 1]%Q [1; 0; 1]))) /\
    feq (last values' NonFinite)
      (Finite (qini_total (zip3 [0; 1; 1]%Q [2; 1; 3]%Q [0; 1; 1]))) /\
    feq (last values NonFinite) (last values' NonFinite).
Proof.
  apply (qini_final_value [1; 0; 1]%Q [3; 2; 1]%Q [1; 0; 1]
           [0; 1; 1]%Q [2; 1; 3]%Q [0; 1; 1]).
  - discriminate.
  - reflexivity.
  - reflexivity.
  - repeat (apply Forall_cons; [lia|]). apply Forall_nil.
  - reflexivity.
  - reflexivity.
  - simpl. apply Permutation_sym.
    apply (perm_trans (perm_skip _ (perm_swap _ _ _))), perm_swap.
Defined.

(** ** A population without controls *)

Lemma no_control_count rows :
  Forall (fun r => treated r = 1) rows -> group_count is_control rows = 0%nat.
Proof.
  unfold group_count, is_control.
  induction 1 as [|r rows H _ IH]; simpl; [reflexivity|].
  now rewrite H.
Qed.

Lemma ranked_all_treated y u t :
  (length u <= length t)%nat -> Forall (fun z => z = 1) t ->
  Forall (fun r => treated r = 1) (ranked y u t).
Proof.
  intros Ht Hb. unfold ranked. apply Forall_map, Forall_forall.
  intros i Hi. simpl. apply in_rev, argsort_bound in Hi.
  rewrite Forall_forall in Hb. apply Hb, nth_In. lia.
Qed.

(** C6.  When every subject is treated, both curve builders return a curve
    on any non-empty input of equal lengths.  All their values are finite,
    the control count is 0 at every threshold, and the terms divided by it
    are exactly 0: the uplift value is (treated mean - 0) * count, the Qini
    value is treated sum - control sum * 0. *)
Theorem all_treated_curves (y u : list Q) (t : list Z) :
  u <> [] -> length y = length u -> length t = length u ->
  Forall (fun z => z = 1) t ->
  exists counts uvalues qvalues,
    uplift_curve y u t = Ok (0 :: counts, Finite 0 :: uvalues) /\
    qini_curve y u t = Ok (0 :: counts, Finite 0 :: qvalues) /\
    Forall is_finite uvalues /\ Forall is_finite qvalues /\
    Forall2 (fun c v => exists p : nat,
               let seen := so_far (ranked y u t) p in
               c = Z.of_nat (S p) /\
               group_count is_control seen = 0%nat /\
               feq v (Finite
                 ((safe_mean (group_sum is_treated seen)
                             (group_count is_treated seen) - 0)
                  * Qnat (S p))))
            counts uvalues /\
    Forall2 (fun c v => exists p : nat,
               let seen := so_far (ranked y u t) p in
               c = Z.of_nat (S p) /\
               group_count is_control seen = 0%nat /\
               feq v (Finite (group_sum is_treated seen
                              - group_sum is_control seen * 0)))
            counts qvalues.
Proof.
  intros Hne Hy Ht Hall.
  rewrite (uplift_curve_run y u t Hne), (qini_curve_run y u t Hne) by lia.
  assert (Hb : binary (ranked y u t)).
  { apply ranked_binary; [lia|]. eapply Forall_impl; [|exact Hall].
    simpl. intros; now right. }
  assert (Hc : forall p, group_count is_control (so_far (ranked y u t) p)
                         = 0%nat).
  { intro p. apply no_control_count, Forall_firstn, ranked_all_treated;
      [lia | exact Hall]. }
  eexists. eexists. eexists.
  split; [reflexivity|]. split; [reflexivity|].
  split; [apply Forall_map, Forall_forall; intros; exact I|].
  split; [apply Forall_map, Forall_forall; intros; exact I|].
  split.
  - apply Forall2_map_same, threshold_positions.
    + apply (scores_nonempty y u t Hne); lia.
    + rewrite length_map, ranked_length. intros p Hp. exists p.
      split; [lia|]. split; [apply Hc|]. simpl.
      rewrite uplift_value_spec by (rewrite ?ranked_length; assumption).
      unfold spec_uplift_value. rewrite Hc. reflexivity.
  - apply Forall2_map_same, threshold_positions.
    + apply (scores_nonempty y u t Hne); lia.
    + rewrite length_map, ranked_length. intros p Hp. exists p.
      split; [lia|]. split; [apply Hc|]. simpl.
      rewrite qini_value_spec by (rewrite ?ranked_length; assumption).
      unfold spec_qini_value. rewrite Hc. reflexivity.
Qed.

Lemma all_treated_curves_witness :
  exists counts uvalues qvalues,
    uplift_curve [1; 0]%Q [2; 1]%Q [1; 1]
      = Ok (0 :: counts, Finite 0 :: uvalues) /\
    qini_curve [1; 0]%Q [2; 1]%Q [1; 1]
      = Ok (0 :: counts, Finite 0 :: qvalues) /\
    Forall is_finite uvalues /\ Forall is_finite qvalues /\
    Forall2 (fun c v => exists p : nat,
               let seen := so_far (ranked [1; 0]%Q [2; 1]%Q [1; 1]) p in
               c = Z.of_nat (S p) /\
               group_count is_control seen = 0%nat /\
               feq v (Finite
                 ((safe_mean (group_sum is_treated seen)
                             (group_count is_treated seen) - 0)
                  * Qnat (S p))))
            counts uvalues /\
    Forall2 (fun c v => exists p : nat,
               let seen := so_far (ranked [1; 0]%Q [2; 1]%Q [1; 1]) p in
               c = Z.of_nat (S p) /\
               group_count is_control seen = 0%nat /\
               feq v (Finite (group_sum is_treated seen
                              - group_sum is_control seen * 0)))
            counts qvalues.
Proof.
  apply (all_treated_curves [1; 0]%Q [2; 1]%Q [1; 1]).
  - discriminate.
  - reflexivity.
  - reflexivity.
  - repeat (apply Forall_cons; [lia|]). apply Forall_nil.
Defined.

(** ** Ranking order *)

Lemma desc_score_indices_pairs u :
  desc_score_indices u = map (fun p => Z.of_nat (fst p)) (ranked_pairs u).
Proof.
  unfold desc_score_indices. now rewrite <- ranked_pairs_fst, map_map.
Qed.

Lemma ranked_pairs_score u p :
  In p (ranked_pairs u) -> score_of u (Z.of_nat (fst p)) = snd p.
Proof.
  intro H. unfold score_of. rewrite Nat2Z.id. apply enumerate_nth.
  unfold ranked_pairs in H. apply in_rev in H.
  eapply Permutation_in; [apply sort_perm | exact H].
Qed.

Lemma desc_score_indices_nth u i :
  (i < length u)%nat ->
  let p := nth i (ranked_pairs u) (0%nat, 0%Q) in
  nth i (desc_score_indices u) 0 = Z.of_nat (fst p) /\
  score_of u (nth i (desc_score_indices u) 0) = snd p.
Proof.
  intros Hi p. rewrite desc_score_indices_pairs.
  change 0 with ((fun q : nat * Q => Z.of_nat (fst q)) (0%nat, 0%Q)).
  rewrite map_nth. fold p. split; [reflexivity|].
  apply ranked_pairs_score, nth_In. now rewrite ranked_pairs_length.
Qed.

Lemma desc_score_indices_length u :
  length (desc_score_indices u) = length u.
Proof.
  unfold desc_score_indices.
  now rewrite length_map, length_rev, argsort_length.
Qed.

Lemma at_k_order_nth (argsort_default : list Q -> list nat) u i :
  (i < length (argsort_default u))%nat ->
  score_of u (nth i (at_k_order argsort_default u) 0) =
  nth (nth (length (argsort_default u) - S i) (argsort_default u) 0%nat)
      u 0%Q.
Proof.
  intro Hi. unfold at_k_order, score_of.
  change 0 with (Z.of_nat 0) at 1. rewrite map_nth, Nat2Z.id.
  now rewrite rev_nth.
Qed.

(** C4 (as the code has it).  The ranking of [uplift_curve] and
    [qini_curve] is a permutation of the input positions, sorts the scores
    in descending order, and places subjects with equal scores in the
    reverse of their input order: the stable ascending sort is reversed as
    a whole.  The ranking of [uplift_at_k] reverses an ascending sort of
    unspecified kind, so it is descending too. *)
Theorem ranking_descending_ties_reversed
    (u : list Q) (argsort_default : list Q -> list nat) :
  Permutation (desc_score_indices u)
              (map Z.of_nat (seq 0 (length u))) /\
  descending u (desc_score_indices u) /\
  ties_in_reverse_input_order u (desc_score_indices u) /\
  (ascending u (argsort_default u) ->
   descending u (at_k_order argsort_default u)).
Proof.
  split; [|split; [|split]].
  - unfold desc_score_indices. apply Permutation_map.
    rewrite <- Permutation_rev. apply argsort_perm.
  - intros i j Hij. rewrite desc_score_indices_length in Hij.
    destruct (desc_score_indices_nth u i) as [_ ->]; [lia|].
    destruct (desc_score_indices_nth u j) as [_ ->]; [lia|].
    apply lex_lt_le, ranked_pairs_desc. exact Hij.
  - intros i j Hij. rewrite desc_score_indices_length in Hij.
    destruct (desc_score_indices_nth u i) as [-> ->]; [lia|].
    destruct (desc_score_indices_nth u j) as [-> ->]; [lia|].
    intro E.
    destruct (ranked_pairs_desc u (0%nat, 0%Q) i j Hij) as [H|[_ H]].
    + rewrite E in H. exfalso. exact (Qlt_irrefl _ H).
    + lia.
  - intros Hasc i j Hij. unfold at_k_order in Hij.
    rewrite length_map, length_rev in Hij.
    rewrite !at_k_order_nth by lia. apply Hasc. lia.
Qed.

Lemma ranking_descending_ties_reversed_witness :
  Permutation (desc_score_indices [1; 1; 2]%Q)
              (map Z.of_nat (seq 0 3)) /\
  descending [1; 1; 2]%Q (desc_score_indices [1; 1; 2]%Q) /\
  ties_in_reverse_input_order [1; 1; 2]%Q
    (desc_score_indices [1; 1; 2]%Q) /\
  descending [1; 1; 2]%Q (at_k_order argsort [1; 1; 2]%Q).
Proof.
  destruct (ranking_descending_ties_reversed [1; 1; 2]%Q argsort)
    as [H1 [H2 [H3 H4]]].
  split; [exact H1 | split; [exact H2 | split; [exact H3|]]].
  apply H4. intros i j Hij. simpl in Hij.
  destruct i as [|[|[|i]]], j as [|[|[|j]]]; try lia;
    unfold Qle; simpl; lia.
Defined.

(** C4 as stated fails: two subjects with the same score are ranked
    second-first. *)
Lemma ranking_not_stable :
  ~ ties_in_input_order [1; 1]%Q (desc_score_indices [1; 1]%Q).
Proof.
  intro H.
  assert (G : 1 < 0); [|lia].
  apply (H 0%nat 1%nat); [simpl; lia | reflexivity].
Qed.

(** ** Thresholds and ties *)

Lemma tied_block_unbroken y u t a b i :
  (a <= i < b)%nat -> (b < length u)%nat ->
  (nth a (map score (ranked y u t)) 0
   == nth b (map score (ranked y u t)) 0)%Q ->
  ~ run_end (map score (ranked y u t)) i.
Proof.
  intros Hi Hb E [_ [H|H]].
  - rewrite length_map, ranked_length in H. lia.
  - apply H. apply Qle_antisym.
    + eapply Qle_trans; [apply (ranked_scores_desc y u t a i); lia|].
      rewrite E. apply ranked_scores_desc. lia.
    + apply ranked_scores_desc. lia.
Qed.

Lemma StronglySorted_map_succ (l : list Z) :
  StronglySorted Z.lt l -> Forall (fun z => 0 <= z) l ->
  StronglySorted Z.lt (0 :: map (fun i => i + 1) l).
Proof.
  intros Hs Hp. constructor.
  - induction Hs as [|x l Hs IH Hx]; simpl; constructor.
    + apply IH. now inversion Hp.
    + apply Forall_map. eapply Forall_impl; [|exact Hx]. simpl. lia.
  - apply Forall_map. eapply Forall_impl; [|exact Hp]. simpl. lia.
Qed.

(** C5.  On a non-empty input of equal lengths both curve builders place
    their points (after the origin) at the counts [i + 1] of exactly the
    ranks [i] that close a run of equal scores: [score[i] != score[i+1]],
    or [i] is the last rank.  Each such rank is used once, in increasing
    order.  For two ranks [a < b] with the same score no returned count [c]
    has [a < c <= b], so no curve point takes the subject at rank [a]
    without the one at rank [b]. *)
Theorem thresholds_close_runs (y u : list Q) (t : list Z) :
  u <> [] -> length y = length u -> length t = length u ->
  let scores := map score (ranked y u t) in
  exists counts uvalues qvalues,
    uplift_curve y u t = Ok (0 :: counts, uvalues) /\
    qini_curve y u t = Ok (0 :: counts, qvalues) /\
    counts = map (fun i => i + 1) (threshold_indices scores) /\
    (forall z, In z (threshold_indices scores) <->
               exists i, z = Z.of_nat i /\ run_end scores i) /\
    StronglySorted Z.lt (threshold_indices scores) /\
    (forall (a b : nat) (c : Z),
        (a < b < length u)%nat ->
        (nth a scores 0 == nth b scores 0)%Q ->
        In c (0 :: counts) ->
        ~ (Z.of_nat a < c <= Z.of_nat b)).
Proof.
  intros Hne Hy Ht scores.
  rewrite (uplift_curve_run y u t Hne), (qini_curve_run y u t Hne) by lia.
  assert (Hs : scores <> []) by (apply (scores_nonempty y u t Hne); lia).
  eexists. eexists. eexists.
  split; [reflexivity|]. split; [reflexivity|]. split; [reflexivity|].
  split; [intro z; now apply threshold_indices_in|].
  split; [apply threshold_indices_sorted|].
  intros a b c Hab E [Hc|Hc] Hbetween; [lia|].
  apply in_map_iff in Hc. destruct Hc as [z [<- Hz]].
  apply threshold_indices_in in Hz; [|exact Hs].
  destruct Hz as [i [-> Hrun]].
  apply (tied_block_unbroken y u t a b i); [lia | lia | exact E | exact Hrun].
Qed.

Lemma thresholds_close_runs_witness :
  let scores := map score (ranked [1; 0; 1]%Q [2; 2; 1]%Q [1; 0; 1]) in
  exists counts uvalues qvalues,
    uplift_curve [1; 0; 1]%Q [2; 2; 1]%Q [1; 0; 1]
      = Ok (0 :: counts, uvalues) /\
    qini_curve [1; 0; 1]%Q [2; 2; 1]%Q [1; 0; 1]
      = Ok (0 :: counts, qvalues) /\
    counts = map (fun i => i + 1) (threshold_indices scores) /\
    (forall z, In z (threshold_indices scores) <->
               exists i, z = Z.of_nat i /\ run_end scores i) /\
    StronglySorted Z.lt (threshold_indices scores) /\
    (forall (a b : nat) (c : Z),
        (a < b < 3)%nat ->
        (nth a scores 0 == nth b scores 0)%Q ->
        In c (0 :: counts) ->
        ~ (Z.of_nat a < c <= Z.of_nat b)).
Proof.
  apply (thresholds_close_runs [1; 0; 1]%Q [2; 2; 1]%Q [1; 0; 1]).
  - discriminate.
  - reflexivity.
  - reflexivity.
Defined.

(** ** When a curve is returned *)

Lemma take_nat_inv {A} (a : list A) (d : list nat) l :
  take a (map Z.of_nat d) = Ok l -> Forall (fun i => (i < length a)%nat) d.
Proof.
  unfold take. revert l. induction d as [|i d IH]; intros l H; simpl in H.
  - constructor.
  - destruct (getitem a (Z.of_nat i)) eqn:E; [|discriminate].
    simpl in H.
    destruct (mapM (getitem a) (map Z.of_nat d)) eqn:E'; [|discriminate].
    constructor; [|now apply (IH a1)].
    unfold getitem in E.
    destruct (Z.ltb_spec (Z.of_nat i) 0); [lia|].
    destruct (Z.leb_spec 0 (Z.of_nat i)); [|lia].
    destruct (Z.ltb_spec (Z.of_nat i) (Z.of_nat (length a)));
      [lia | discriminate].
Qed.

Lemma take_nat_desc_inv {A} (a : list A) (u : list Q) l :
  take a (desc_score_indices u) = Ok l -> (length u <= length a)%nat.
Proof.
  intro H. apply take_nat_inv in H.
  destruct u as [|x u]; [simpl; lia|].
  rewrite Forall_forall in H.
  specialize (H (length u)). simpl length.
  enough (length u < length a)%nat by lia. apply H.
  apply -> in_rev. eapply Permutation_in;
    [symmetry; apply argsort_perm|].
  apply in_seq. simpl. lia.
Qed.

Lemma uplift_curve_inv y u t r :
  uplift_curve y u t = Ok r ->
  u <> [] /\ (length u <= length y)%nat /\ (length u <= length t)%nat.
Proof.
  intro H. split.
  - intro E. subst u. discriminate H.
  - unfold uplift_curve in H.
    destruct (take y (desc_score_indices u)) eqn:Ey; [|discriminate].
    cbn [bind] in H.
    destruct (take u (desc_score_indices u)) eqn:Eu; [|discriminate].
    cbn [bind] in H.
    destruct (take t (desc_score_indices u)) eqn:Et; [|discriminate].
    split; eapply take_nat_desc_inv; eassumption.
Qed.

Lemma qini_curve_inv y u t r :
  qini_curve y u t = Ok r ->
  u <> [] /\ (length u <= length y)%nat /\ (length u <= length t)%nat.
Proof.
  intro H. split.
  - intro E. subst u. discriminate H.
  - unfold qini_curve in H.
    destruct (take y (desc_score_indices u)) eqn:Ey; [|discriminate].
    cbn [bind] in H.
    destruct (take t (desc_score_indices u)) eqn:Et; [|discriminate].
    split; eapply take_nat_desc_inv; eassumption.
Qed.

Lemma run_counts_increasing y u t :
  u <> [] ->
  StronglySorted Z.lt
    (0 :: map (fun p => p + 1)
            (threshold_indices (map score (ranked y u t)))).
Proof.
  intro Hne. apply StronglySorted_map_succ.
  - apply threshold_indices_sorted.
  - assert (Hs : map score (ranked y u t) <> []).
    { intro E. apply (f_equal (@length Q)) in E.
      rewrite length_map, ranked_length in E.
      destruct u; [congruence | discriminate]. }
    eapply Forall_impl; [|apply (threshold_indices_bound _ Hs)].
    simpl. lia.
Qed.

(** C7.  Every counts sequence [uplift_curve] or [qini_curve] returns,
    origin included, is strictly increasing; and both return a curve on
    every non-empty input of equal lengths. *)
Theorem counts_strictly_increasing (y u : list Q) (t : list Z) :
  (forall counts values,
      uplift_curve y u t = Ok (counts, values) \/
      qini_curve y u t = Ok (counts, values) ->
      StronglySorted Z.lt counts) /\
  (u <> [] -> length y = length u -> length t = length u ->
   exists counts uvalues qvalues,
     uplift_curve y u t = Ok (counts, uvalues) /\
     qini_curve y u t = Ok (counts, qvalues) /\
     StronglySorted Z.lt counts).
Proof.
  split.
  - intros counts values [H|H].
    + destruct (uplift_curve_inv _ _ _ _ H) as [Hne [Hy Ht]].
      rewrite (uplift_curve_run y u t Hne Hy Ht) in H.
      injection H as <- _. now apply run_counts_increasing.
    + destruct (qini_curve_inv _ _ _ _ H) as [Hne [Hy Ht]].
      rewrite (qini_curve_run y u t Hne Hy Ht) in H.
      injection H as <- _. now apply run_counts_increasing.
  - intros Hne Hy Ht.
    rewrite (uplift_curve_run y u t Hne), (qini_curve_run y u t Hne) by lia.
    eexists. eexists. eexists.
    split; [reflexivity|]. split; [reflexivity|].
    now apply run_counts_increasing.
Qed.

Lemma counts_strictly_increasing_witness :
  (forall counts values,
      uplift_curve [1; 0; 1]%Q [2; 2; 1]%Q [1; 0; 1] = Ok (counts, values) \/
      qini_curve [1; 0; 1]%Q [2; 2; 1]%Q [1; 0; 1] = Ok (counts, values) ->
      StronglySorted Z.lt counts) /\
  exists counts uvalues qvalues,
    uplift_curve [1; 0; 1]%Q [2; 2; 1]%Q [1; 0; 1] = Ok (counts, uvalues) /\
    qini_curve [1; 0; 1]%Q [2; 2; 1]%Q [1; 0; 1] = Ok (counts, qvalues) /\
    StronglySorted Z.lt counts.
Proof.
  destruct (counts_strictly_increasing [1; 0; 1]%Q [2; 2; 1]%Q [1; 0; 1])
    as [H1 H2].
  split; [exact H1|].
  apply H2; [discriminate | reflexivity | reflexivity].
Defined.

(** ** The empty input *)

(** C2 (failing input).  With no subject at all the threshold array is
    [[-1]], and indexing the empty running sums with it raises before the
    test for an empty sequence is reached: no curve, hence no (0, 0)
    point, is returned. *)
Theorem empty_input_raises (y : list Q) (t : list Z) :
  threshold_indices [] = [-1] /\
  uplift_curve y [] t = Raise IndexError /\
  qini_curve y [] t = Raise IndexError /\
  uplift_curve [] [] [] = Raise IndexError /\
  qini_curve [] [] [] = Raise IndexError.
Proof. repeat split; reflexivity. Qed.

(** * The top-k score *)

Lemma unique_counts_length (t : list Z) :
  length (unique_counts t) = length (nodup Z.eq_dec t).
Proof. unfold unique_counts, unique. now rewrite length_map, sort_length. Qed.

Lemma one_group_counts (t : list Z) :
  (forall a b, In a t -> In b t -> a = b) ->
  (length (unique_counts t) <= 1)%nat.
Proof.
  intro H. rewrite unique_counts_length.
  pose proof (NoDup_nodup Z.eq_dec t) as N.
  destruct (nodup Z.eq_dec t) as [|a [|b l]] eqn:E; simpl; try lia.
  assert (Ha : In a t) by (apply (nodup_In Z.eq_dec); rewrite E; now left).
  assert (Hb : In b t)
    by (apply (nodup_In Z.eq_dec); rewrite E; right; now left).
  inversion N as [|? ? Hn _]; subst. exfalso. apply Hn.
  left. symmetry. now apply H.
Qed.

Lemma two_groups_counts (t : list Z) a b :
  In a t -> In b t -> a <> b -> (2 <= length (unique_counts t))%nat.
Proof.
  intros Ha Hb Hab. rewrite unique_counts_length.
  change 2%nat with (length [a; b]). apply NoDup_incl_length.
  - constructor; [|repeat constructor; easy].
    intros [H|[]]. congruence.
  - intros x [<-|[<-|[]]]; now apply nodup_In.
Qed.

Lemma recognised_average (average : string) :
  average = "first"%string \/ average = "group"%string ->
  existsb (String.eqb average) ["first"; "group"]%string = true.
Proof. intros [->| ->]; reflexivity. Qed.

Lemma consistent_length_ok (a b c : nat) :
  a = b -> b = c -> check_consistent_length a b c = Ok tt.
Proof.
  intros -> ->. unfold check_consistent_length.
  now rewrite Nat.eqb_refl.
Qed.

Lemma k_out_of_range_spec (k : kparam) (n : Z) :
  k_out_of_range k n = false /\ k_kind_known k = true <-> k_valid k n.
Proof.
  destruct k as [z|q|o]; simpl.
  - rewrite orb_false_iff. split.
    + intros [[H1 H2] _].
      destruct (Z.geb_spec z n); [discriminate|].
      destruct (Z.leb_spec z 0); [discriminate | lia].
    + intro H. repeat split.
      * destruct (Z.geb_spec z n); [lia | reflexivity].
      * destruct (Z.leb_spec z 0); [lia | reflexivity].
  - rewrite orb_false_iff. split.
    + intros [[H1 H2] _]. split; apply Qnot_le_lt; intro H;
        apply Qle_bool_iff in H; congruence.
    + intros [H1 H2]. repeat split.
      * destruct (Qle_bool q 0) eqn:E; [|reflexivity].
        apply Qle_bool_iff in E. exfalso. exact (Qlt_not_le _ _ H1 E).
      * destruct (Qle_bool 1 q) eqn:E; [|reflexivity].
        apply Qle_bool_iff in E. exfalso. exact (Qlt_not_le _ _ H2 E).
  - split; [intros [_ H]; discriminate | easy].
Qed.

Section TopK.
Variable argsort_default : list Q -> list nat.
Variable round64 : Q -> Q.
Variables (y u : list Q) (t : list Z) (k : kparam) (average : string).
Hypothesis len_y : length y = length u.
Hypothesis len_t : length u = length t.
Hypothesis mode : average = "first"%string \/ average = "group"%string.

(** What is left of the function once both counts were read. *)
Lemma uplift_at_k_two_groups a b :
  In a t -> In b t -> a <> b ->
  exists c0 c1 rest,
    unique_counts t = c0 :: c1 :: rest /\
    uplift_at_k argsort_default round64 y u t k average =
    if k_out_of_range k (Z.of_nat (length y))
    then Raise (ValueError KOutOfRange)
    else if negb (k_kind_known k) then Raise (ValueError KInvalidKind)
    else
      let order := at_k_order argsort_default u in
      if String.eqb average "first" then
        y_ord <- take y order ;;
        t_ord <- take t order ;;
        let n_size := window round64 (Z.of_nat (length y)) k in
        let y_top := slice_to y_ord n_size in
        let t_top := slice_to t_ord n_size in
        Ok (fsub (mean (compress y_top (map (Z.eqb 1) t_top)))
                 (mean (compress y_top (map (Z.eqb 0) t_top))))
      else
        if window round64 (count_eq 0 t) k >? c0
        then Raise (ValueError GroupTooSmallCtrl) else
        if window round64 (count_eq 1 t) k >? c1
        then Raise (ValueError GroupTooSmallTrmnt) else
        y_ord <- take y order ;;
        t_ord <- take t order ;;
        Ok (fsub
              (mean (slice_to (compress y_ord (map (Z.eqb 1) t_ord))
                       (window round64 (count_eq 1 t) k)))
              (mean (slice_to (compress y_ord (map (Z.eqb 0) t_ord))
                       (window round64 (count_eq 0 t) k)))).
Proof.
  intros Ha Hb Hab.
  pose proof (two_groups_counts t a b Ha Hb Hab) as L.
  unfold uplift_at_k.
  rewrite consistent_length_ok by assumption. cbn [bind].
  rewrite recognised_average by exact mode. cbn [negb].
  destruct (unique_counts t) as [|c0 [|c1 l]]; simpl in L; try lia.
  exists c0, c1, l. split; [reflexivity|].
  rewrite (getitem_ok (c0 :: c1 :: l) 0 0),
    (getitem_ok (c0 :: c1 :: l) 1 0) by (simpl length; lia).
  reflexivity.
Qed.
End TopK.

(** C10.  When the treatment array holds fewer than two distinct values,
    [uplift_at_k] (called with arrays of one length and one of its two
    modes) raises an index error for every [k]: it reads the count of a
    second treatment value that does not exist, before [k] is looked at
    and before any score is computed. *)
Theorem uplift_at_k_needs_two_groups
    (argsort_default : list Q -> list nat) (round64 : Q -> Q)
    (y u : list Q) (t : list Z) (k : kparam) (average : string) :
  length y = length u -> length u = length t ->
  average = "first"%string \/ average = "group"%string ->
  (forall a b, In a t -> In b t -> a = b) ->
  uplift_at_k argsort_default round64 y u t k average = Raise IndexError.
Proof.
  intros Hy Ht Hm H. unfold uplift_at_k.
  rewrite consistent_length_ok by assumption. cbn [bind].
  rewrite recognised_average by exact Hm. cbn [negb].
  pose proof (one_group_counts t H) as L.
  destruct (unique_counts t) as [|c0 [|c1 l]]; simpl in L.
  - now rewrite getitem_empty.
  - reflexivity.
  - lia.
Qed.

Lemma uplift_at_k_needs_two_groups_witness :
  uplift_at_k argsort unrounded [1; 0; 1]%Q [3; 2; 1]%Q [1; 1; 1]
    (KFloat (1 # 2)) "group" = Raise IndexError.
Proof.
  apply (uplift_at_k_needs_two_groups argsort unrounded
           [1; 0; 1]%Q [3; 2; 1]%Q [1; 1; 1] (KFloat (1 # 2)) "group").
  - reflexivity.
  - reflexivity.
  - right. reflexivity.
  - simpl. lia.
Defined.

(** C8 (as the code has it).  With arrays of one length, a recognised mode
    and at least two distinct treatment values, [uplift_at_k] raises the
    error of the domain of [k] exactly when [k] is invalid: an integer [k]
    is valid iff [0 < k < N], a fractional [k] iff [0 < k < 1], a [k] of
    any other kind never.  In particular [k = 2.0] raises it. *)
Theorem uplift_at_k_k_domain
    (argsort_default : list Q -> list nat) (round64 : Q -> Q)
    (y u : list Q) (t : list Z) (k : kparam) (average : string) :
  length y = length u -> length u = length t ->
  average = "first"%string \/ average = "group"%string ->
  (exists a b, In a t /\ In b t /\ a <> b) ->
  (k_domain_error (uplift_at_k argsort_default round64 y u t k average) <->
   ~ k_valid k (Z.of_nat (length y))) /\
  uplift_at_k argsort_default round64 y u t (KFloat 2) average
  = Raise (ValueError KOutOfRange).
Proof.
  intros Hy Ht Hm [a [b [Ha [Hb Hab]]]]. split.
  - destruct (uplift_at_k_two_groups argsort_default round64 y u t k average
                Hy Ht Hm a b Ha Hb Hab) as [c0 [c1 [rest [_ ->]]]].
    rewrite <- k_out_of_range_spec.
    destruct (k_out_of_range k (Z.of_nat (length y))).
    + split; [intros _ [H _]; discriminate H | intros _; now left].
    + destruct (k_kind_known k); cbn [negb].
      * split; [|intro H; exfalso; apply H; now split].
        intros E _. unfold k_domain_error in E.
        cbv beta iota zeta in E.
        destruct (String.eqb average "first").
        -- destruct (take y _) eqn:Ty; cbn [bind] in E;
             [|apply take_raise in Ty; subst;
               destruct E as [E|E]; discriminate E].
           destruct (take t _) eqn:Tt; cbn [bind] in E;
             [|apply take_raise in Tt; subst];
             destruct E as [E|E]; discriminate E.
        -- destruct (_ >? c0); [destruct E as [E|E]; discriminate E|].
           destruct (_ >? c1); [destruct E as [E|E]; discriminate E|].
           destruct (take y _) eqn:Ty; cbn [bind] in E;
             [|apply take_raise in Ty; subst;
               destruct E as [E|E]; discriminate E].
           destruct (take t _) eqn:Tt; cbn [bind] in E;
             [|apply take_raise in Tt; subst];
             destruct E as [E|E]; discriminate E.
      * split; [intros _ [_ H]; discriminate H | intros _; now right].
  - destruct (uplift_at_k_two_groups argsort_default round64 y u t (KFloat 2)
                average Hy Ht Hm a b Ha Hb Hab) as [c0 [c1 [rest [_ ->]]]].
    reflexivity.
Qed.

Lemma uplift_at_k_k_domain_witness :
  (k_domain_error
     (uplift_at_k argsort unrounded [1; 0; 1]%Q [3; 2; 1]%Q [1; 0; 1]
        (KInt 3) "first")
   <-> ~ k_valid (KInt 3) 3) /\
  uplift_at_k argsort unrounded [1; 0; 1]%Q [3; 2; 1]%Q [1; 0; 1]
    (KFloat 2) "first"
  = Raise (ValueError KOutOfRange).
Proof.
  apply (uplift_at_k_k_domain argsort unrounded
           [1; 0; 1]%Q [3; 2; 1]%Q [1; 0; 1] (KInt 3) "first").
  - reflexivity.
  - reflexivity.
  - left. reflexivity.
  - exists 1, 0. simpl. lia.
Defined.

(** C8 as stated fails twice.  With a single treatment value an invalid
    [k] gets an index error, not a range error; and in group mode a valid
    [k] can still get a range error, that of the group capacity. *)
Lemma range_error_not_exactly_invalid_k :
  ~ (range_error
       (uplift_at_k argsort unrounded [1; 0]%Q [2; 1]%Q [1; 1] (KInt 5) "first")
     <-> ~ k_valid (KInt 5) 2) /\
  ~ (range_error
       (uplift_at_k argsort unrounded [1; 0; 1; 0]%Q [4; 3; 2; 1]%Q [1; 1; 1; 0]
          (KInt 2) "group")
     <-> ~ k_valid (KInt 2) 4).
Proof.
  split.
  - intros [_ H].
    assert (R : range_error (Raise IndexError)).
    { apply H. simpl. lia. }
    destruct R as [[R|R]|[R|R]]; discriminate R.
  - intros [H _]. apply H; [|simpl; lia].
    right. left. reflexivity.
Qed.

(** C9 (as the code has it).  With both groups present, [k = 1.0] is
    rejected in both modes: a fractional [k] has to be strictly below 1,
    so the error of the domain of [k] is raised and no score is
    returned. *)
Theorem uplift_at_k_whole_population_rejected
    (argsort_default : list Q -> list nat) (round64 : Q -> Q)
    (y u : list Q) (t : list Z) (average : string) :
  length y = length u -> length u = length t ->
  average = "first"%string \/ average = "group"%string ->
  In 0 t -> In 1 t ->
  uplift_at_k argsort_default round64 y u t (KFloat 1) average
  = Raise (ValueError KOutOfRange).
Proof.
  intros Hy Ht Hm H0 H1.
  destruct (uplift_at_k_two_groups argsort_default round64 y u t (KFloat 1)
              average Hy Ht Hm 0 1 H0 H1) as [c0 [c1 [rest [_ ->]]]];
    [lia | reflexivity].
Qed.

Lemma uplift_at_k_whole_population_rejected_witness :
  uplift_at_k argsort unrounded [1; 0; 1; 0]%Q [4; 3; 2; 1]%Q [1; 0; 1; 0]
    (KFloat 1) "group"
  = Raise (ValueError KOutOfRange).
Proof.
  apply (uplift_at_k_whole_population_rejected argsort unrounded
           [1; 0; 1; 0]%Q [4; 3; 2; 1]%Q [1; 0; 1; 0] "group").
  - reflexivity.
  - reflexivity.
  - right. reflexivity.
  - simpl. lia.
  - simpl. lia.
Defined.

(** C9 as stated fails: with both groups present and [k = 1.0], neither
    mode returns the overall treated mean minus the overall control
    mean. *)
Lemma whole_population_score_not_returned :
  ~ (exists v,
        uplift_at_k argsort unrounded [1; 0; 1; 0]%Q [4; 3; 2; 1]%Q [1; 0; 1; 0]
          (KFloat 1) "first" = Ok v /\
        feq v (overall_uplift [1; 0; 1; 0]%Q [4; 3; 2; 1]%Q [1; 0; 1; 0])) /\
  ~ (exists v,
        uplift_at_k argsort unrounded [1; 0; 1; 0]%Q [4; 3; 2; 1]%Q [1; 0; 1; 0]
          (KFloat 1) "group" = Ok v /\
        feq v (overall_uplift [1; 0; 1; 0]%Q [4; 3; 2; 1]%Q [1; 0; 1; 0])).
Proof. split; intros [v [H _]]; discriminate H. Qed.

(** On every non-empty input of equal lengths both curves do start at
    (0, 0): the first count is at least 1, so the origin is always added. *)
Lemma curves_start_at_origin (y u : list Q) (t : list Z) :
  u <> [] -> length y = length u -> length t = length u ->
  exists counts uvalues qvalues,
    uplift_curve y u t = Ok (0 :: counts, Finite 0 :: uvalues) /\
    qini_curve y u t = Ok (0 :: counts, Finite 0 :: qvalues) /\
    Forall (fun c => 1 <= c) counts.
Proof.
  intros Hne Hy Ht.
  rewrite (uplift_curve_run y u t Hne), (qini_curve_run y u t Hne) by lia.
  eexists. eexists. eexists.
  split; [reflexivity|]. split; [reflexivity|].
  apply Forall_map.
  eapply Forall_impl; [|apply (thr_bound y u t Hne); lia].
  simpl. lia.
Qed.

(** * Further properties of the curve builders *)

(** X1.  On a non-empty input of equal lengths with 0/1 treatment labels,
    [qini_curve] returns, after the origin, one point per threshold
    position [p] with count [p + 1] and value
    sum(outcome | treated) - sum(outcome | control) * (treated / controls)
    over the first [p + 1] ranked subjects, the ratio being 0 when there is
    no control among them.  Every value is finite. *)
Theorem qini_curve_values (y u : list Q) (t : list Z) :
  u <> [] -> length y = length u -> length t = length u ->
  binary_labels t ->
  exists counts values,
    qini_curve y u t = Ok (0 :: counts, Finite 0 :: values) /\
    Forall is_finite values /\
    Forall2 (fun c v => exists p : nat,
               c = Z.of_nat (S p) /\ (p < length u)%nat /\
               feq v (Finite (spec_qini_value (ranked y u t) p)))
            counts values.
Proof.
  intros Hne Hy Ht Hb.
  rewrite (qini_curve_run y u t Hne) by lia.
  eexists. eexists. split; [reflexivity|]. split.
  - apply Forall_map, Forall_forall. intros; exact I.
  - apply Forall2_map_same, threshold_positions.
    + apply (scores_nonempty y u t Hne); lia.
    + rewrite length_map, ranked_length. intros p Hp. exists p.
      split; [lia|]. split; [exact Hp|]. simpl.
      apply qini_value_spec.
      * apply ranked_binary; [lia | exact Hb].
      * now rewrite ranked_length.
Qed.

Lemma qini_curve_values_witness :
  exists counts values,
    qini_curve [1; 0; 1]%Q [3; 2; 1]%Q [1; 0; 1]
      = Ok (0 :: counts, Finite 0 :: values) /\
    Forall is_finite values /\
    Forall2 (fun c v => exists p : nat,
               c = Z.of_nat (S p) /\ (p < 3)%nat /\
               feq v (Finite (spec_qini_value
                        (ranked [1; 0; 1]%Q [3; 2; 1]%Q [1; 0; 1]) p)))
            counts values.
Proof.
  apply (qini_curve_values [1; 0; 1]%Q [3; 2; 1]%Q [1; 0; 1]).
  - discriminate.
  - reflexivity.
  - reflexivity.
  - repeat (apply Forall_cons; [lia|]). apply Forall_nil.
Defined.

Lemma safe_mean_comp s s' c :
  (s == s')%Q -> (safe_mean s c == safe_mean s' c)%Q.
Proof.
  intro H. unfold safe_mean. destruct (c =? 0)%nat; [reflexivity|].
  now rewrite H.
Qed.

Lemma uplift_total_perm rows rows' :
  Permutation rows rows' -> (uplift_total rows == uplift_total rows')%Q.
Proof.
  intro H. unfold uplift_total.
  rewrite (group_count_perm is_treated _ _ H),
    (group_count_perm is_control _ _ H), (Permutation_length H).
  rewrite (safe_mean_comp _ _ _ (group_sum_perm is_treated _ _ H)),
    (safe_mean_comp _ _ _ (group_sum_perm is_control _ _ H)).
  reflexivity.
Qed.

Lemma spec_uplift_value_total rows p :
  (p < length rows)%nat ->
  spec_uplift_value rows p = uplift_total (so_far rows p).
Proof.
  intro H. unfold spec_uplift_value, uplift_total.
  replace (length (so_far rows p)) with (S p); [reflexivity|].
  unfold so_far. rewrite length_firstn. lia.
Qed.

Lemma uplift_final (y u : list Q) (t : list Z) :
  u <> [] -> length y = length u -> length t = length u ->
  binary_labels t ->
  exists counts values,
    uplift_curve y u t = Ok (counts, values) /\
    feq (last values NonFinite) (Finite (uplift_total (zip3 y u t))).
Proof.
  intros Hne Hy Ht Hb.
  rewrite (uplift_curve_run y u t Hne) by lia.
  eexists. eexists. split; [reflexivity|].
  set (rows := ranked y u t).
  assert (Lr : length rows = length u) by apply ranked_length.
  assert (Hrows : rows <> []).
  { intro E. rewrite E in Lr. destruct u; [congruence | discriminate]. }
  unfold threshold_indices. rewrite !map_app. simpl map.
  rewrite app_comm_cons, last_last. simpl.
  rewrite length_map, Lr.
  replace (Z.of_nat (length u) - 1) with (Z.of_nat (length u - 1)).
  2:{ destruct u; [congruence | simpl length; lia]. }
  assert (Hp : (length u - 1 < length rows)%nat).
  { rewrite Lr. destruct u; [congruence | simpl; lia]. }
  rewrite uplift_value_spec;
    [ | apply ranked_binary; [lia | exact Hb] | exact Hp ].
  rewrite spec_uplift_value_total by exact Hp. rewrite <- Lr.
  destruct (so_far_all rows) as [E|E]; [rewrite E | congruence].
  apply uplift_total_perm, ranked_perm; assumption.
Qed.

(** X2.  For a non-empty input with 0/1 treatment labels the last value
    [uplift_curve] returns is (mean outcome of all treated - mean outcome
    of all controls) * N over the whole input, a mean being 0 for an empty
    group.  Reordering the three arrays by one common permutation leaves
    this last value unchanged. *)
Theorem uplift_final_value (y u : list Q) (t : list Z)
    (y' u' : list Q) (t' : list Z) :
  u <> [] -> length y = length u -> length t = length u ->
  binary_labels t ->
  length y' = length u' -> length t' = length u' ->
  Permutation (zip3 y u t) (zip3 y' u' t') ->
  exists counts values counts' values',
    uplift_curve y u t = Ok (counts, values) /\
    uplift_curve y' u' t' = Ok (counts', values') /\
    feq (last values NonFinite) (Finite (uplift_total (zip3 y u t))) /\
    feq (last values NonFinite) (last values' NonFinite).
Proof.
  intros Hne Hy Ht Hb Hy' Ht' Hp.
  assert (Hne' : u' <> []).
  { apply Permutation_length in Hp. rewrite !zip3_length in Hp by assumption.
    intro E. subst u'. destruct u; [congruence | discriminate]. }
  assert (Hb' : binary_labels t').
  { apply (zip3_binary y' u' t' Hy' Ht').
    eapply Permutation_Forall; [exact Hp|]. now apply binary_zip3. }
  destruct (uplift_final y u t Hne Hy Ht Hb) as [c [v [E F]]].
  destruct (uplift_final y' u' t' Hne' Hy' Ht' Hb') as [c' [v' [E' F']]].
  exists c, v, c', v'. repeat split; try assumption.
  eapply feq_trans; [exact F|]. apply feq_sym.
  eapply feq_trans; [exact F'|]. simpl.
  symmetry. now apply uplift_total_perm.
Qed.

Lemma uplift_final_value_witness :
  exists counts values counts' values',
    uplift_curve [1; 0; 1]%Q [3; 2; 1]%Q [1; 0; 1] = Ok (counts, values) /\
    uplift_curve [0; 1; 1]%Q [2; 1; 3]%Q [0; 1; 1] = Ok (counts', values') /\
    feq (last values NonFinite)
      (Finite (uplift_total (zip3 [1; 0; 1]%Q [3; 2; 1]%Q [1; 0; 1]))) /\
    feq (last values NonFinite) (last values' NonFinite).
Proof.
  apply (uplift_final_value [1; 0; 1]%Q [3; 2; 1]%Q [1; 0; 1]
           [0; 1; 1]%Q [2; 1; 3]%Q [0; 1; 1]).
  - discriminate.
  - reflexivity.
  - reflexivity.
  - repeat (apply Forall_cons; [lia|]). apply Forall_nil.
  - reflexivity.
  - reflexivity.
  - simpl. apply Permutation_sym.
    apply (perm_trans (perm_skip _ (perm_swap _ _ _))), perm_swap.
Defined.

Lemma nonzero_from_length s a :
  (length (nonzero_from s a) <= length a)%nat.
Proof.
  revert s. induction a as [|x a IH]; intro s; simpl; [lia|].
  destruct (Qeq_bool x 0); simpl; specialize (IH (s + 1)); lia.
Qed.

Lemma threshold_indices_length (a : list Q) :
  a <> [] -> (1 <= length (threshold_indices a) <= length a)%nat.
Proof.
  intro Hne. unfold threshold_indices, where_nonzero.
  rewrite length_app. simpl.
  pose proof (nonzero_from_length 0 (diff a)) as H.
  rewrite diff_length in H.
  destruct a; [congruence | simpl in *; lia].
Qed.

(** X3.  On a non-empty input of equal lengths both builders return the
    same counts, each with a value sequence of the same length; a curve has
    between 2 and N + 1 points and its last count is N, the number of
    subjects. *)
Theorem curve_shape (y u : list Q) (t : list Z) :
  u <> [] -> length y = length u -> length t = length u ->
  exists counts uvalues qvalues,
    uplift_curve y u t = Ok (counts, uvalues) /\
    qini_curve y u t = Ok (counts, qvalues) /\
    length uvalues = length counts /\
    length qvalues = length counts /\
    (2 <= length counts <= length u + 1)%nat /\
    last counts 0 = Z.of_nat (length u).
Proof.
  intros Hne Hy Ht.
  rewrite (uplift_curve_run y u t Hne), (qini_curve_run y u t Hne) by lia.
  pose proof (threshold_indices_length _ (scores_nonempty y u t Hne
    ltac:(lia) ltac:(lia))) as L.
  rewrite length_map, ranked_length in L.
  eexists. eexists. eexists.
  split; [reflexivity|]. split; [reflexivity|].
  simpl length. rewrite !length_map.
  split; [reflexivity|]. split; [reflexivity|]. split; [lia|].
  unfold threshold_indices. rewrite map_app. simpl map.
  rewrite app_comm_cons, last_last, length_map, ranked_length. lia.
Qed.

Lemma curve_shape_witness :
  exists counts uvalues qvalues,
    uplift_curve [1; 0; 1]%Q [2; 2; 1]%Q [1; 0; 1] = Ok (counts, uvalues) /\
    qini_curve [1; 0; 1]%Q [2; 2; 1]%Q [1; 0; 1] = Ok (counts, qvalues) /\
    length uvalues = length counts /\
    length qvalues = length counts /\
    (2 <= length counts <= 3 + 1)%nat /\
    last counts 0 = 3.
Proof.
  apply (curve_shape [1; 0; 1]%Q [2; 2; 1]%Q [1; 0; 1]).
  - discriminate.
  - reflexivity.
  - reflexivity.
Defined.

(** ** Arrays of different lengths *)

Lemma take_desc_short {A} (a : list A) (u : list Q) :
  (length a < length u)%nat ->
  take a (desc_score_indices u) = Raise IndexError.
Proof.
  intro H. destruct (take a (desc_score_indices u)) eqn:E.
  - apply take_nat_desc_inv in E. lia.
  - now rewrite (take_raise _ _ _ E).
Qed.

Lemma take_desc_long {A} (a : list A) (u : list Q) d :
  (length u <= length a)%nat ->
  take a (desc_score_indices u) =
  Ok (map (fun i => nth i a d) (rev (argsort u))).
Proof.
  intro H. unfold desc_score_indices. apply take_nat_ok.
  apply Forall_forall. intros i Hi. apply in_rev, argsort_bound in Hi. lia.
Qed.

Lemma curves_raise_short (y u : list Q) (t : list Z) :
  (length y < length u)%nat \/ (length t < length u)%nat ->
  uplift_curve y u t = Raise IndexError /\
  qini_curve y u t = Raise IndexError.
Proof.
  intro H. unfold uplift_curve, qini_curve.
  destruct (Nat.lt_ge_cases (length y) (length u)) as [Hy|Hy].
  - now rewrite (take_desc_short y u Hy).
  - destruct H as [H|H]; [lia|].
    rewrite (take_desc_long y u 0%Q Hy),
      (take_desc_long u u 0%Q (Nat.le_refl _)), (take_desc_short t u H).
    split; reflexivity.
Qed.

(** X4.  The curve builders do not compare the lengths of their arrays.
    They raise exactly when there is no score at all, or when the outcomes
    or the treatment labels are fewer than the scores, and the error is
    then always the index error of the re-indexing; in every other case a
    curve is returned. *)
Theorem curve_failure (y u : list Q) (t : list Z) :
  ((exists e, uplift_curve y u t = Raise e) <->
   u = [] \/ (length y < length u)%nat \/ (length t < length u)%nat) /\
  ((exists e, qini_curve y u t = Raise e) <->
   u = [] \/ (length y < length u)%nat \/ (length t < length u)%nat) /\
  (forall e, uplift_curve y u t = Raise e \/ qini_curve y u t = Raise e ->
             e = IndexError).
Proof.
  destruct u as [|x u].
  { split; [|split].
    - split; [now left | intros _; now exists IndexError].
    - split; [now left | intros _; now exists IndexError].
    - intros e [H|H]; cbv in H; congruence. }
  assert (Hne : x :: u <> []) by discriminate.
  destruct (Nat.lt_ge_cases (length y) (length (x :: u))) as [Hy|Hy];
    [|destruct (Nat.lt_ge_cases (length t) (length (x :: u))) as [Ht|Ht]].
  - destruct (curves_raise_short y (x :: u) t (or_introl Hy)) as [-> ->].
    split; [|split].
    + split; [intros _; right; now left | intros _; now exists IndexError].
    + split; [intros _; right; now left | intros _; now exists IndexError].
    + intros e [H|H]; congruence.
  - destruct (curves_raise_short y (x :: u) t (or_intror Ht)) as [-> ->].
    split; [|split].
    + split; [intros _; right; now right | intros _; now exists IndexError].
    + split; [intros _; right; now right | intros _; now exists IndexError].
    + intros e [H|H]; congruence.
  - rewrite (uplift_curve_run y _ t Hne Hy Ht),
      (qini_curve_run y _ t Hne Hy Ht).
    split; [|split].
    + split; [intros [e H]; discriminate H | intros [H|[H|H]]];
        [discriminate H | lia | lia].
    + split; [intros [e H]; discriminate H | intros [H|[H|H]]];
        [discriminate H | lia | lia].
    + intros e [H|H]; discriminate H.
Qed.

Lemma ranked_firstn y u t :
  ranked (firstn (length u) y) u (firstn (length u) t) = ranked y u t.
Proof.
  unfold ranked. apply map_ext_in. intros i Hi.
  apply in_rev, argsort_bound in Hi.
  rewrite !nth_firstn. apply Nat.ltb_lt in Hi. now rewrite Hi.
Qed.

(** X5.  When the outcomes or the treatment labels are more than the
    scores, no error is raised: the entries past the number of scores are
    ignored, and both curves are those of the arrays cut to that number. *)
Theorem long_arrays_truncated (y u : list Q) (t : list Z) :
  (length u <= length y)%nat -> (length u <= length t)%nat ->
  uplift_curve y u t
    = uplift_curve (firstn (length u) y) u (firstn (length u) t) /\
  qini_curve y u t
    = qini_curve (firstn (length u) y) u (firstn (length u) t).
Proof.
  intros Hy Ht. destruct u as [|x u]; [split; reflexivity|].
  assert (Hne : x :: u <> []) by discriminate.
  rewrite (uplift_curve_run y _ t Hne Hy Ht),
    (qini_curve_run y _ t Hne Hy Ht).
  rewrite (uplift_curve_run (firstn _ y) _ (firstn _ t) Hne),
    (qini_curve_run (firstn _ y) _ (firstn _ t) Hne)
    by (rewrite length_firstn; lia).
  rewrite ranked_firstn. split; reflexivity.
Qed.

Lemma long_arrays_truncated_witness :
  uplift_curve [1; 0; 1; 7]%Q [3; 2; 1]%Q [1; 0; 1; 1; 0]
    = uplift_curve [1; 0; 1]%Q [3; 2; 1]%Q [1; 0; 1] /\
  qini_curve [1; 0; 1; 7]%Q [3; 2; 1]%Q [1; 0; 1; 1; 0]
    = qini_curve [1; 0; 1]%Q [3; 2; 1]%Q [1; 0; 1].
Proof.
  apply (long_arrays_truncated [1; 0; 1; 7]%Q [3; 2; 1]%Q [1; 0; 1; 1; 0]).
  - simpl. lia.
  - simpl. lia.
Defined.

(** ** The two curves against each other *)

Lemma Qnat_nonzero n : ~ (Qnat (S n) == 0)%Q.
Proof.
  unfold Qnat, Qeq. simpl. lia.
Qed.

Lemma group_sum_empty g rows :
  group_count g rows = 0%nat -> group_sum g rows = 0%Q.
Proof.
  unfold group_count, group_sum. intro H.
  apply length_zero_iff_nil in H. now rewrite H.
Qed.

Lemma uplift_qini_algebra (rows : list subject) :
  binary rows ->
  (uplift_total rows * Qnat (group_count is_treated rows)
   == qini_total rows * Qnat (length rows))%Q.
Proof.
  intro Hb. unfold uplift_total, qini_total.
  pose proof (group_sum_empty is_treated rows) as Zt.
  pose proof (group_sum_empty is_control rows) as Zc.
  rewrite <- (group_count_split rows Hb).
  destruct (group_count is_treated rows) as [|nt],
           (group_count is_control rows) as [|nc];
    unfold safe_mean, safe_ratio; simpl Nat.eqb; cbv iota.
  - change (Qnat (0 + 0)) with 0%Q. change (Qnat 0) with 0%Q. ring.
  - rewrite Zt by reflexivity. change (Qnat 0) with 0%Q.
    field. apply Qnat_nonzero.
  - rewrite Zc by reflexivity. field. apply Qnat_nonzero.
  - field. split; apply Qnat_nonzero.
Qed.

(** X6.  On a non-empty input of equal lengths with 0/1 treatment labels
    the two curves are tied point by point: at every count [c] the uplift
    value times the number of treated subjects among the first [c] ranked
    ones equals the Qini value times [c]. *)
Theorem uplift_qini_relation (y u : list Q) (t : list Z) :
  u <> [] -> length y = length u -> length t = length u ->
  binary_labels t ->
  exists counts uvalues qvalues,
    uplift_curve y u t = Ok (0 :: counts, Finite 0 :: uvalues) /\
    qini_curve y u t = Ok (0 :: counts, Finite 0 :: qvalues) /\
    Forall2 (fun c vw => exists (p : nat) (a b : Q),
               c = Z.of_nat (S p) /\
               fst vw = Finite a /\ snd vw = Finite b /\
               (a * Qnat (group_count is_treated (so_far (ranked y u t) p))
                == b * Qnat (S p))%Q)
            counts (combine uvalues qvalues).
Proof.
  intros Hne Hy Ht Hb.
  rewrite (uplift_curve_run y u t Hne), (qini_curve_run y u t Hne) by lia.
  eexists. eexists. eexists.
  split; [reflexivity|]. split; [reflexivity|].
  rewrite combine_map_same.
  apply Forall2_map_same, threshold_positions.
  - apply (scores_nonempty y u t Hne); lia.
  - rewrite length_map, ranked_length. intros p Hp.
    exists p, (uplift_value (ranked y u t) (Z.of_nat p)),
      (qini_value (ranked y u t) (Z.of_nat p)).
    split; [lia|]. split; [reflexivity|]. split; [reflexivity|].
    assert (Hr : binary (ranked y u t))
      by (apply ranked_binary; [lia | exact Hb]).
    assert (Hl : (p < length (ranked y u t))%nat)
      by now rewrite ranked_length.
    rewrite (uplift_value_spec _ _ Hr Hl), (qini_value_spec _ _ Hr Hl).
    rewrite (spec_uplift_value_total _ _ Hl).
    change (spec_qini_value (ranked y u t) p)
      with (qini_total (so_far (ranked y u t) p)).
    replace (S p) with (length (so_far (ranked y u t) p))
      by (unfold so_far; rewrite length_firstn; lia).
    apply uplift_qini_algebra. now apply Forall_firstn.
Qed.

Lemma uplift_qini_relation_witness :
  exists counts uvalues qvalues,
    uplift_curve [1; 0; 1]%Q [3; 2; 1]%Q [1; 0; 1]
      = Ok (0 :: counts, Finite 0 :: uvalues) /\
    qini_curve [1; 0; 1]%Q [3; 2; 1]%Q [1; 0; 1]
      = Ok (0 :: counts, Finite 0 :: qvalues) /\
    Forall2 (fun c vw => exists (p : nat) (a b : Q),
               c = Z.of_nat (S p) /\
               fst vw = Finite a /\ snd vw = Finite b /\
               (a * Qnat (group_count is_treated
                            (so_far (ranked [1; 0; 1]%Q [3; 2; 1]%Q
                                       [1; 0; 1]%Z) p))
                == b * Qnat (S p))%Q)
            counts (combine uvalues qvalues).
Proof.
  apply (uplift_qini_relation [1; 0; 1]%Q [3; 2; 1]%Q [1; 0; 1]).
  - discriminate.
  - reflexivity.
  - reflexivity.
  - repeat (apply Forall_cons; [lia|]). apply Forall_nil.
Defined.

(** ** Curve points as score thresholds *)

Lemma in_firstn_nth {A} (l : list A) k x d :
  In x (firstn k l) ->
  exists i, (i < k)%nat /\ (i < length l)%nat /\ nth i l d = x.
Proof.
  intro H. destruct (In_nth _ _ d H) as [i [Hi E]].
  rewrite length_firstn in Hi. rewrite nth_firstn in E.
  destruct (Nat.ltb_spec i k); [|lia].
  exists i. repeat split; [lia | lia | exact E].
Qed.

Lemma in_skipn_nth {A} (l : list A) k x d :
  In x (skipn k l) ->
  exists i, (k <= i < length l)%nat /\ nth i l d = x.
Proof.
  intro H. destruct (In_nth _ _ d H) as [i [Hi E]].
  rewrite length_skipn in Hi. rewrite nth_skipn in E.
  exists (k + i)%nat. split; [lia | exact E].
Qed.

Lemma filter_none {A} (f : A -> bool) (l : list A) :
  (forall x, In x l -> f x = false) -> filter f l = [].
Proof.
  induction l as [|x l IH]; intro H; simpl; [reflexivity|].
  rewrite (H x (or_introl eq_refl)). apply IH.
  intros z Hz. apply H. now right.
Qed.

Lemma ranked_score_nth y u t i :
  score (nth i (ranked y u t) no_subject)
  = nth i (map score (ranked y u t)) 0%Q.
Proof.
  change 0%Q with (score no_subject). symmetry. apply map_nth.
Qed.

Lemma run_end_top y u t p :
  run_end (map score (ranked y u t)) p ->
  scoring_at_least (nth p (map score (ranked y u t)) 0%Q) (ranked y u t)
  = firstn (S p) (ranked y u t).
Proof.
  intros [Hp Hrun]. rewrite length_map, ranked_length in Hp, Hrun.
  set (rows := ranked y u t) in *.
  set (s := nth p (map score rows) 0%Q).
  unfold scoring_at_least.
  rewrite <- (firstn_skipn (S p) rows) at 1. rewrite filter_app.
  rewrite forallb_filter_id, filter_none; [apply app_nil_r | |].
  - intros x Hx.
    destruct (in_skipn_nth rows (S p) x no_subject Hx) as [i [Hi <-]].
    unfold rows in Hi. rewrite ranked_length in Hi.
    destruct Hrun as [Hrun|Hrun]; [lia|].
    destruct (Qle_bool s _) eqn:E; [|reflexivity].
    apply Qle_bool_iff in E. unfold rows in E.
    rewrite ranked_score_nth in E. exfalso. apply Hrun.
    apply Qle_antisym.
    + eapply Qle_trans; [exact E|]. apply ranked_scores_desc. lia.
    + apply ranked_scores_desc. lia.
  - apply forallb_forall. intros x Hx.
    destruct (in_firstn_nth rows (S p) x no_subject Hx) as [i [Hi [_ <-]]].
    apply Qle_bool_iff. unfold rows. rewrite ranked_score_nth.
    apply ranked_scores_desc. lia.
Qed.

Lemma zip3_score_in y u t r :
  length y = length u -> length t = length u ->
  In r (zip3 y u t) -> In (score r) u.
Proof.
  intros Hy Ht H. destruct (In_nth _ _ no_subject H) as [i [Hi <-]].
  unfold no_subject. rewrite zip3_nth by assumption. simpl.
  apply nth_In. rewrite zip3_length in Hi by assumption. exact Hi.
Qed.

(** X7.  On a non-empty input of equal lengths with 0/1 treatment labels
    every point of either curve after the origin is the total of a score
    threshold: for some score [s] of the input, its count is the number of
    subjects scoring at least [s], and its value is the uplift total
    (the Qini total) of exactly those subjects.  The points therefore do
    not depend on the order in which the subjects are given or on how
    ties are ranked. *)
Theorem curve_points_by_score (y u : list Q) (t : list Z) :
  u <> [] -> length y = length u -> length t = length u ->
  binary_labels t ->
  exists counts uvalues qvalues,
    uplift_curve y u t = Ok (0 :: counts, Finite 0 :: uvalues) /\
    qini_curve y u t = Ok (0 :: counts, Finite 0 :: qvalues) /\
    Forall2 (fun c vw => exists s : Q,
               In s u /\
               let top := scoring_at_least s (zip3 y u t) in
               c = Z.of_nat (length top) /\
               feq (fst vw) (Finite (uplift_total top)) /\
               feq (snd vw) (Finite (qini_total top)))
            counts (combine uvalues qvalues).
Proof.
  intros Hne Hy Ht Hb.
  rewrite (uplift_curve_run y u t Hne), (qini_curve_run y u t Hne) by lia.
  eexists. eexists. eexists.
  split; [reflexivity|]. split; [reflexivity|].
  rewrite combine_map_same. apply Forall2_map_same, Forall_forall.
  intros z Hz.
  assert (Hs : map score (ranked y u t) <> [])
    by (apply (scores_nonempty y u t Hne); lia).
  apply (threshold_indices_in _ z Hs) in Hz.
  destruct Hz as [p [-> Hrun]].
  pose proof (run_end_top y u t p Hrun) as Top.
  destruct Hrun as [Hp _]. rewrite length_map in Hp.
  set (rows := ranked y u t) in *.
  set (s := nth p (map score rows) 0%Q) in *.
  assert (Perm : Permutation (scoring_at_least s rows)
                             (scoring_at_least s (zip3 y u t))).
  { apply filter_perm, ranked_perm; assumption. }
  assert (Hr : binary rows) by (apply ranked_binary; [lia | exact Hb]).
  exists s. split.
  - assert (E : s = score (nth p rows no_subject))
      by (unfold s, rows; now rewrite ranked_score_nth).
    rewrite E. apply (zip3_score_in y u t _ Hy Ht).
    eapply Permutation_in; [apply ranked_perm; assumption|].
    now apply nth_In.
  - cbv zeta. split; [|split].
    + rewrite <- (Permutation_length Perm), Top, length_firstn. lia.
    + simpl. rewrite (uplift_value_spec _ _ Hr Hp).
      rewrite (spec_uplift_value_total _ _ Hp). unfold so_far.
      rewrite <- Top. now apply uplift_total_perm.
    + simpl. rewrite (qini_value_spec _ _ Hr Hp).
      change (spec_qini_value rows p) with (qini_total (so_far rows p)).
      unfold so_far. rewrite <- Top. now apply qini_total_perm.
Qed.

Lemma curve_points_by_score_witness :
  exists counts uvalues qvalues,
    uplift_curve [1; 0; 1]%Q [2; 2; 1]%Q [1; 0; 1]
      = Ok (0 :: counts, Finite 0 :: uvalues) /\
    qini_curve [1; 0; 1]%Q [2; 2; 1]%Q [1; 0; 1]
      = Ok (0 :: counts, Finite 0 :: qvalues) /\
    Forall2 (fun c vw => exists s : Q,
               In s [2; 2; 1]%Q /\
               let top := scoring_at_least s
                            (zip3 [1; 0; 1]%Q [2; 2; 1]%Q [1; 0; 1]%Z) in
               c = Z.of_nat (length top) /\
               feq (fst vw) (Finite (uplift_total top)) /\
               feq (snd vw) (Finite (qini_total top)))
            counts (combine uvalues qvalues).
Proof.
  apply (curve_points_by_score [1; 0; 1]%Q [2; 2; 1]%Q [1; 0; 1]).
  - discriminate.
  - reflexivity.
  - reflexivity.
  - repeat (apply Forall_cons; [lia|]). apply Forall_nil.
Defined.

(** ** Rescaling the scores *)

Section SortMap.
Context {A B : Type} (le : A -> A -> bool) (le' : B -> B -> bool).
Variable g : A -> B.
Hypothesis le_g : forall x y, le' (g x) (g y) = le x y.

Lemma insert_map x l : insert le' (g x) (map g l) = map g (insert le x l).
Proof.
  induction l as [|z l IH]; simpl; [reflexivity|].
  rewrite le_g. destruct (le x z); simpl; [reflexivity|].
  now rewrite IH.
Qed.

Lemma sort_map l : sort le' (map g l) = map g (sort le l).
Proof.
  induction l as [|x l IH]; simpl; [reflexivity|].
  now rewrite IH, insert_map.
Qed.
End SortMap.

Lemma combine_map_r {A B C} (f : B -> C) (l : list A) (m : list B) :
  combine l (map f m) = map (fun p => (fst p, f (snd p))) (combine l m).
Proof.
  revert m. induction l as [|a l IH]; intros [|b m]; simpl; try reflexivity.
  now rewrite IH.
Qed.

Lemma argsort_map (f : Q -> Q) (u : list Q) :
  order_embedding f -> argsort (map f u) = argsort u.
Proof.
  intro Hf. unfold argsort, enumerate.
  rewrite length_map, combine_map_r.
  rewrite (sort_map key_le key_le (fun p => (fst p, f (snd p)))).
  - rewrite map_map. reflexivity.
  - intros p q. unfold key_le. simpl. apply Hf.
Qed.

Lemma Qeq_bool_diff (a b : Q) :
  Qeq_bool (b - a) 0 = Qle_bool a b && Qle_bool b a.
Proof.
  apply eq_true_iff_eq.
  rewrite andb_true_iff, Qeq_bool_iff, !Qle_bool_iff.
  split; [intro H; split; lra | intros [H1 H2]; lra].
Qed.

Lemma diff_nonzero_map (f : Q -> Q) (a : list Q) s :
  order_embedding f ->
  nonzero_from s (diff (map f a)) = nonzero_from s (diff a).
Proof.
  intro Hf. revert s. induction a as [|x [|z a] IH]; intro s;
    try reflexivity.
  change (diff (map f (x :: z :: a)))
    with ((f z - f x)%Q :: diff (map f (z :: a))).
  change (diff (x :: z :: a)) with ((z - x)%Q :: diff (z :: a)).
  simpl nonzero_from. rewrite !Qeq_bool_diff, !Hf, IH. reflexivity.
Qed.

Lemma threshold_indices_map (f : Q -> Q) (a : list Q) :
  order_embedding f -> threshold_indices (map f a) = threshold_indices a.
Proof.
  intro Hf. unfold threshold_indices, where_nonzero.
  now rewrite diff_nonzero_map, length_map.
Qed.

Lemma ranked_map_views (f : Q -> Q) y u t :
  order_embedding f ->
  let rows := ranked y u t in
  let rows' := ranked y (map f u) t in
  map score rows' = map f (map score rows) /\
  labels rows' = labels rows /\
  trmnt_view rows' = trmnt_view rows /\
  ctrl_view rows' = ctrl_view rows.
Proof.
  intros Hf rows rows'. subst rows rows'.
  unfold ranked, labels, trmnt_view, ctrl_view.
  rewrite (argsort_map f u Hf), !map_map. simpl.
  repeat split; try reflexivity.
  apply map_ext_in. intros i Hi. apply in_rev, argsort_bound in Hi.
  rewrite (nth_indep _ 0%Q (f 0%Q)) by now rewrite length_map.
  apply map_nth.
Qed.

(** X8.  The curves depend on the scores only through their order: a map
    of the scores that keeps every comparison (a positive rescaling, any
    strictly increasing transformation) changes neither curve, nor the
    error raised when there is none. *)
Theorem curves_rank_invariant (f : Q -> Q) (y u : list Q) (t : list Z) :
  order_embedding f ->
  uplift_curve y (map f u) t = uplift_curve y u t /\
  qini_curve y (map f u) t = qini_curve y u t.
Proof.
  intro Hf. destruct u as [|x u]; [split; reflexivity|].
  assert (Hne : x :: u <> []) by discriminate.
  assert (Hne' : map f (x :: u) <> []) by discriminate.
  destruct (Nat.lt_ge_cases (length y) (length (x :: u))) as [Hy|Hy];
    [|destruct (Nat.lt_ge_cases (length t) (length (x :: u))) as [Ht|Ht]].
  - destruct (curves_raise_short y (x :: u) t (or_introl Hy)) as [-> ->].
    apply curves_raise_short. left. now rewrite length_map.
  - destruct (curves_raise_short y (x :: u) t (or_intror Ht)) as [-> ->].
    apply curves_raise_short. right. now rewrite length_map.
  - rewrite (uplift_curve_run y _ t Hne Hy Ht),
      (qini_curve_run y _ t Hne Hy Ht).
    rewrite (uplift_curve_run y _ t Hne'), (qini_curve_run y _ t Hne')
      by now rewrite length_map.
    destruct (ranked_map_views f y (x :: u) t Hf) as [Es [El [Et Ec]]].
    rewrite Es, (threshold_indices_map f _ Hf).
    unfold uplift_value, qini_value, num_ctrl_at, num_trmnt_at,
      y_trmnt_at, y_ctrl_at.
    rewrite El, Et, Ec. split; reflexivity.
Qed.

Lemma curves_rank_invariant_witness :
  uplift_curve [1; 0; 1]%Q (map (fun q => 2 * q + 1)%Q [3; 2; 2]%Q) [1; 0; 1]
    = uplift_curve [1; 0; 1]%Q [3; 2; 2]%Q [1; 0; 1] /\
  qini_curve [1; 0; 1]%Q (map (fun q => 2 * q + 1)%Q [3; 2; 2]%Q) [1; 0; 1]
    = qini_curve [1; 0; 1]%Q [3; 2; 2]%Q [1; 0; 1].
Proof.
  apply (curves_rank_invariant (fun q => 2 * q + 1)%Q).
  intros a b. apply eq_true_iff_eq. rewrite !Qle_bool_iff.
  split; intro H; lra.
Defined.

(** * The areas *)

(** X9.  [auuc] and [auqc] hand the integrator the points of their curve
    and return what it returns.  On a non-empty input whose outcomes and
    labels are at least as many as the scores, the integrator receives at
    least two points, as many values as counts, strictly increasing
    counts and finite values only; on any other input the index error of
    the curve builder is raised and the integrator is not reached. *)
Theorem areas_compose (auc : list Z -> list fval -> result fval)
    (y u : list Q) (t : list Z) :
  (u <> [] -> (length u <= length y)%nat -> (length u <= length t)%nat ->
   exists counts uvalues qvalues,
     uplift_curve y u t = Ok (counts, uvalues) /\
     qini_curve y u t = Ok (counts, qvalues) /\
     auuc auc y u t = auc counts uvalues /\
     auqc auc y u t = auc counts qvalues /\
     (2 <= length counts)%nat /\
     length uvalues = length counts /\ length qvalues = length counts /\
     StronglySorted Z.lt counts /\
     Forall is_finite uvalues /\ Forall is_finite qvalues) /\
  (u = [] \/ (length y < length u)%nat \/ (length t < length u)%nat ->
   auuc auc y u t = Raise IndexError /\ auqc auc y u t = Raise IndexError).
Proof.
  split.
  - intros Hne Hy Ht. unfold auuc, auqc.
    rewrite (uplift_curve_run y u t Hne Hy Ht),
      (qini_curve_run y u t Hne Hy Ht).
    pose proof (threshold_indices_length _
                  (scores_nonempty y u t Hne Hy Ht)) as L.
    eexists. eexists. eexists.
    split; [reflexivity|]. split; [reflexivity|].
    split; [reflexivity|]. split; [reflexivity|].
    simpl length. rewrite !length_map.
    split; [lia|]. split; [reflexivity|]. split; [reflexivity|].
    split; [now apply run_counts_increasing|].
    split; constructor; try exact I;
      apply Forall_map, Forall_forall; intros; exact I.
  - intros [->|H]; [split; reflexivity|]. unfold auuc, auqc.
    destruct (curves_raise_short y u t H) as [-> ->]. split; reflexivity.
Qed.

Lemma areas_compose_witness :
  (exists counts uvalues qvalues,
     uplift_curve [1; 0; 1]%Q [3; 2; 1]%Q [1; 0; 1] = Ok (counts, uvalues) /\
     qini_curve [1; 0; 1]%Q [3; 2; 1]%Q [1; 0; 1] = Ok (counts, qvalues) /\
     auuc (fun x v => Ok (trapezoid x v)) [1; 0; 1]%Q [3; 2; 1]%Q [1; 0; 1]
       = Ok (trapezoid counts uvalues) /\
     auqc (fun x v => Ok (trapezoid x v)) [1; 0; 1]%Q [3; 2; 1]%Q [1; 0; 1]
       = Ok (trapezoid counts qvalues) /\
     (2 <= length counts)%nat /\
     length uvalues = length counts /\ length qvalues = length counts /\
     StronglySorted Z.lt counts /\
     Forall is_finite uvalues /\ Forall is_finite qvalues) /\
  auuc (fun x v => Ok (trapezoid x v)) [1]%Q [3; 2]%Q [1; 0]
    = Raise IndexError /\
  auqc (fun x v => Ok (trapezoid x v)) [1]%Q [3; 2]%Q [1; 0]
    = Raise IndexError.
Proof.
  split.
  - apply (areas_compose (fun x v => Ok (trapezoid x v))
             [1; 0; 1]%Q [3; 2; 1]%Q [1; 0; 1]).
    + discriminate.
    + simpl. lia.
    + simpl. lia.
  - apply (areas_compose (fun x v => Ok (trapezoid x v))
             [1]%Q [3; 2]%Q [1; 0]).
    right. left. simpl. lia.
Defined.

(** * Further properties of the top-k score *)

(** X10.  [uplift_at_k] validates in a fixed order.  Arrays of different
    lengths raise the length error whatever the other arguments are; with
    equal lengths an [average] other than ['first'] and ['group'] raises
    the configuration error before the treatment groups or [k] are
    looked at. *)
Theorem uplift_at_k_validation_order
    (argsort_default : list Q -> list nat) (round64 : Q -> Q)
    (y u : list Q) (t : list Z) (k : kparam) (average : string) :
  (length y <> length u \/ length u <> length t ->
   uplift_at_k argsort_default round64 y u t k average
   = Raise (ValueError InconsistentLength)) /\
  (length y = length u -> length u = length t ->
   average <> "first"%string -> average <> "group"%string ->
   uplift_at_k argsort_default round64 y u t k average
   = Raise (ValueError UnsupportedAverage)).
Proof.
  split.
  - intro H. unfold uplift_at_k, check_consistent_length.
    destruct (Nat.eqb_spec (length y) (length u)) as [E1|E1];
      [|reflexivity].
    destruct (Nat.eqb_spec (length u) (length t)) as [E2|E2];
      [|reflexivity].
    destruct H; contradiction.
  - intros Hy Ht H1 H2. unfold uplift_at_k.
    rewrite consistent_length_ok by assumption. cbn [bind existsb].
    destruct (String.eqb_spec average "first"); [contradiction|].
    destruct (String.eqb_spec average "group"); [contradiction|].
    reflexivity.
Qed.

Lemma uplift_at_k_validation_order_witness :
  uplift_at_k argsort unrounded [1; 0]%Q [3; 2; 1]%Q [1; 0; 1] (KInt 1) "first"
    = Raise (ValueError InconsistentLength) /\
  uplift_at_k argsort unrounded [1; 0; 1]%Q [3; 2; 1]%Q [1; 1; 1]
    (KInt 7) "mean"
    = Raise (ValueError UnsupportedAverage).
Proof.
  split.
  - apply (uplift_at_k_validation_order argsort unrounded
             [1; 0]%Q [3; 2; 1]%Q [1; 0; 1] (KInt 1) "first").
    left. simpl. lia.
  - apply (uplift_at_k_validation_order argsort unrounded
             [1; 0; 1]%Q [3; 2; 1]%Q [1; 1; 1] (KInt 7) "mean").
    + reflexivity.
    + reflexivity.
    + discriminate.
    + discriminate.
Defined.

(** ** Windows *)

Lemma compress_map {A B} (f : A -> B) (g : A -> bool) (l : list A) :
  compress (map f l) (map g l) = map f (filter g l).
Proof.
  induction l as [|x l IH]; simpl; [reflexivity|].
  destruct (g x); simpl; now rewrite IH.
Qed.

Lemma slice_to_firstn {A} (l : list A) (n : Z) :
  0 <= n -> slice_to l n = firstn (Z.to_nat n) l.
Proof.
  intro H. unfold slice_to. destruct (Z.ltb_spec n 0); [lia | reflexivity].
Qed.

Lemma mean_finite (l : list Q) : l <> [] <-> is_finite (mean l).
Proof.
  unfold mean, fdiv. destruct l as [|x l]; simpl.
  - split; [congruence | easy].
  - split; [easy | discriminate].
Qed.

Lemma fsub_finite a b : is_finite (fsub a b) <-> is_finite a /\ is_finite b.
Proof. destruct a, b; simpl; tauto. Qed.

Lemma slice_to_map {A B} (f : A -> B) (l : list A) (n : Z) :
  slice_to (map f l) n = map f (slice_to l n).
Proof.
  unfold slice_to. rewrite length_map.
  destruct (n <? 0); now rewrite firstn_map.
Qed.

Lemma window_float_bounds (round64 : Q -> Q) (n : Z) (q : Q) :
  rounds_to_nearest round64 n (KFloat q) ->
  1 <= n -> (0 < q /\ q < 1)%Q ->
  1 <= window round64 n (KFloat q) <= n.
Proof.
  intros [Mono [Rq Rn]] Hn [H0 H1]. simpl.
  assert (Hn' : (inject_Z 1 <= inject_Z n)%Q) by now rewrite <- Zle_Qle.
  change (inject_Z 1) with 1%Q in Hn'.
  assert (Px : (q <= inject_Z n * q)%Q) by nra.
  assert (Bx : (inject_Z n * q <= inject_Z n)%Q) by nra.
  pose proof (Mono _ _ Px) as Rp. rewrite Rq in Rp.
  pose proof (Mono _ _ Bx) as Rb. rewrite Rn in Rb.
  pose proof (Qle_ceiling (round64 (inject_Z n * q)%Q)) as Up.
  pose proof (Qceiling_lt (round64 (inject_Z n * q)%Q)) as Lo.
  split.
  - assert (G : (inject_Z 0 < inject_Z (Qceiling
                                          (round64 (inject_Z n * q)%Q)))%Q).
    { eapply Qlt_le_trans; [|exact Up].
      eapply Qlt_le_trans; [exact H0 | exact Rp]. }
    rewrite <- Zlt_Qlt in G. lia.
  - assert (G : (inject_Z (Qceiling (round64 (inject_Z n * q)%Q) - 1)
                 < inject_Z n)%Q).
    { eapply Qlt_le_trans; [exact Lo | exact Rb]. }
    rewrite <- Zlt_Qlt in G. lia.
Qed.

Lemma window_bounds (round64 : Q -> Q) (n : Z) (k : kparam) :
  rounds_to_nearest round64 n k ->
  1 <= n -> k_valid k n -> 1 <= window round64 n k <= n.
Proof.
  intros Hr Hn. destruct k as [z|q|o]; simpl k_valid; intro H.
  - simpl. lia.
  - now apply window_float_bounds.
  - contradiction.
Qed.

(** The window follows the rounded product, not the exact one.  The float
    nearest to one tenth lies a little above it, so ten times that float
    is a little above 1: the exact product has ceiling 2, whereas a
    rounding that sends the product to the float 1 gives the window 1. *)
Lemma window_of_rounded_product (round64 : Q -> Q) (n z : Z) (q : Q) :
  (round64 (inject_Z n * q) == inject_Z z)%Q ->
  window round64 n (KFloat q) = z.
Proof.
  intro H. simpl. rewrite H. apply Qceiling_Z.
Qed.

Lemma window_one_tenth :
  let tenth := (3602879701896397 # 36028797018963968)%Q in
  window unrounded 10 (KFloat tenth) = 2 /\
  forall round64 : Q -> Q,
    (round64 (inject_Z 10 * tenth) == 1)%Q ->
    window round64 10 (KFloat tenth) = 1.
Proof.
  split; [reflexivity|].
  intros round64 H. now apply (window_of_rounded_product round64 10 1).
Qed.

Lemma is_treated_mask rows :
  map (Z.eqb 1) (map treated rows) = map is_treated rows.
Proof.
  rewrite map_map. apply map_ext. intro r. apply Z.eqb_sym.
Qed.

Lemma is_control_mask rows :
  map (Z.eqb 0) (map treated rows) = map is_control rows.
Proof.
  rewrite map_map. apply map_ext. intro r. apply Z.eqb_sym.
Qed.

Lemma two_values_length (t : list Z) a b :
  In a t -> In b t -> a <> b -> (2 <= length t)%nat.
Proof.
  destruct t as [|z [|z' t']]; simpl; intros Ha Hb Hab; [tauto | | lia].
  destruct Ha as [Ha|[]], Hb as [Hb|[]]. congruence.
Qed.

Section AtK.
Variable argsort_default : list Q -> list nat.
Variable round64 : Q -> Q.
Variables (y u : list Q) (t : list Z).
Hypothesis len_y : length y = length u.
Hypothesis len_t : length u = length t.
Hypothesis sorted : sorts_positions argsort_default u.

Let rows := at_k_rows argsort_default y u t.

Lemma at_k_bound n :
  (length u <= n)%nat ->
  Forall (fun i => (i < n)%nat) (rev (argsort_default u)).
Proof.
  intro Hn. apply Forall_forall. intros i Hi. apply in_rev in Hi.
  eapply Permutation_in in Hi; [|exact sorted].
  apply in_seq in Hi. lia.
Qed.

Lemma at_k_take_y :
  take y (at_k_order argsort_default u) = Ok (map outcome rows).
Proof.
  unfold at_k_order. rewrite (take_nat_ok y _ 0%Q) by (apply at_k_bound; lia).
  subst rows. unfold at_k_rows. now rewrite map_map.
Qed.

Lemma at_k_take_t :
  take t (at_k_order argsort_default u) = Ok (map treated rows).
Proof.
  unfold at_k_order. rewrite (take_nat_ok t _ 0) by (apply at_k_bound; lia).
  subst rows. unfold at_k_rows. now rewrite map_map.
Qed.

Lemma at_k_rows_length : length rows = length u.
Proof.
  subst rows. unfold at_k_rows. rewrite length_map, length_rev.
  rewrite (Permutation_length sorted). apply length_seq.
Qed.

Lemma at_k_rows_perm : Permutation rows (zip3 y u t).
Proof.
  subst rows. unfold at_k_rows.
  rewrite (map_ext _ (fun i => nth i (zip3 y u t) no_subject))
    by (intro i; unfold no_subject; now rewrite zip3_nth).
  transitivity (map (fun i => nth i (zip3 y u t) no_subject)
                    (seq 0 (length (zip3 y u t)))).
  - apply Permutation_map. rewrite zip3_length by congruence.
    rewrite <- Permutation_rev. exact sorted.
  - now rewrite map_nth_seq.
Qed.

Lemma first_mode_run (k : kparam) :
  (exists a b, In a t /\ In b t /\ a <> b) ->
  k_valid k (Z.of_nat (length y)) ->
  uplift_at_k argsort_default round64 y u t k "first" =
  let top := slice_to rows (window round64 (Z.of_nat (length y)) k) in
  Ok (fsub (group_mean is_treated top) (group_mean is_control top)).
Proof.
  intros [a [b [Ha [Hb Hab]]]] Hk.
  destruct (uplift_at_k_two_groups argsort_default round64 y u t k "first"
              len_y len_t (or_introl eq_refl) a b Ha Hb Hab)
    as [c0 [c1 [rest [_ ->]]]].
  apply k_out_of_range_spec in Hk as Hk'. destruct Hk' as [-> ->].
  cbn [negb]. cbv zeta. rewrite String.eqb_refl.
  rewrite at_k_take_y, at_k_take_t. cbn [bind].
  rewrite !slice_to_map, is_treated_mask, is_control_mask, !compress_map.
  reflexivity.
Qed.
End AtK.

Lemma group_mean_finite (g : subject -> bool) (rows : list subject) :
  is_finite (group_mean g rows) <-> exists r, In r rows /\ g r = true.
Proof.
  unfold group_mean. rewrite <- mean_finite. split.
  - intro H. destruct (filter g rows) as [|r l] eqn:E; [now elim H|].
    exists r. apply filter_In. rewrite E. now left.
  - intros [r Hr] E. apply filter_In in Hr.
    apply map_eq_nil in E. rewrite E in Hr. destruct Hr.
Qed.

(** X11.  In ['first'] mode, on arrays of one length with at least two
    treatment values, a valid [k] and a sort that lists every position
    once, the window holds [n] subjects, [n = k] for an integer [k] and
    [n = ceil(N * k)] for a fraction, the product taken as the machine
    rounds it; with a rounding that keeps the order of the reals and
    leaves the floats [k] and [N] alone, [1 <= n <= N].  The score
    returned is the mean outcome of the treated minus the mean outcome of
    the controls among the first [n] subjects of the ranking. *)
Theorem first_mode_score
    (argsort_default : list Q -> list nat) (round64 : Q -> Q)
    (y u : list Q) (t : list Z) (k : kparam) :
  length y = length u -> length u = length t ->
  sorts_positions argsort_default u ->
  rounds_to_nearest round64 (Z.of_nat (length y)) k ->
  (exists a b, In a t /\ In b t /\ a <> b) ->
  k_valid k (Z.of_nat (length y)) ->
  let n := window round64 (Z.of_nat (length y)) k in
  let top := firstn (Z.to_nat n) (at_k_rows argsort_default y u t) in
  1 <= n <= Z.of_nat (length y) /\
  length top = Z.to_nat n /\
  uplift_at_k argsort_default round64 y u t k "first"
  = Ok (fsub (group_mean is_treated top) (group_mean is_control top)).
Proof.
  intros Hy Ht Hs Hr Hg Hk n top.
  assert (Hn : 1 <= n <= Z.of_nat (length y)).
  { apply window_bounds; [exact Hr | | exact Hk].
    destruct Hg as [a [b [Ha [Hb Hab]]]].
    pose proof (two_values_length t a b Ha Hb Hab). lia. }
  split; [exact Hn|]. split.
  - subst top. rewrite length_firstn.
    rewrite (at_k_rows_length argsort_default y u t Hs). lia.
  - rewrite (first_mode_run argsort_default round64 y u t Hy Ht Hs k Hg Hk).
    cbv zeta. fold n. rewrite slice_to_firstn by lia. reflexivity.
Qed.

Lemma first_mode_score_witness :
  let n := window unrounded 4 (KFloat (1 # 2)) in
  let top := firstn (Z.to_nat n)
               (at_k_rows argsort [1; 0; 1; 1]%Q [1; 2; 3; 4]%Q
                  [0; 1; 0; 1]) in
  1 <= n <= 4 /\
  length top = Z.to_nat n /\
  uplift_at_k argsort unrounded [1; 0; 1; 1]%Q [1; 2; 3; 4]%Q [0; 1; 0; 1]
    (KFloat (1 # 2)) "first"
  = Ok (fsub (group_mean is_treated top) (group_mean is_control top)).
Proof.
  apply (first_mode_score argsort unrounded [1; 0; 1; 1]%Q [1; 2; 3; 4]%Q
           [0; 1; 0; 1] (KFloat (1 # 2))).
  - reflexivity.
  - reflexivity.
  - unfold sorts_positions. simpl. reflexivity.
  - simpl. unfold unrounded.
    split; [intros x x' H; exact H | split; reflexivity].
  - exists 0, 1. simpl. lia.
  - simpl. lra.
Defined.

(** X12.  In ['first'] mode no check is made that both groups occur in
    the window.  On arrays of one length with at least two treatment
    values, a valid [k] and a sort that lists every position once, a
    score is always returned, however the product [N * k] is rounded; it
    is a number exactly when the window [ranked[:n]] holds at least one
    treated and at least one control subject, and NaN otherwise. *)
Theorem first_mode_nan
    (argsort_default : list Q -> list nat) (round64 : Q -> Q)
    (y u : list Q) (t : list Z) (k : kparam) :
  length y = length u -> length u = length t ->
  sorts_positions argsort_default u ->
  (exists a b, In a t /\ In b t /\ a <> b) ->
  k_valid k (Z.of_nat (length y)) ->
  let top := slice_to (at_k_rows argsort_default y u t)
               (window round64 (Z.of_nat (length y)) k) in
  exists v,
    uplift_at_k argsort_default round64 y u t k "first" = Ok v /\
    (is_finite v <->
     (exists r, In r top /\ treated r = 1) /\
     (exists r, In r top /\ treated r = 0)).
Proof.
  intros Hy Ht Hs Hg Hk top.
  rewrite (first_mode_run argsort_default round64 y u t Hy Ht Hs k Hg Hk).
  eexists. split; [reflexivity|]. fold top.
  rewrite fsub_finite, !group_mean_finite.
  unfold is_treated, is_control.
  split; intros [[r [H1 H2]] [r' [H3 H4]]]; (split; [exists r | exists r']);
    (split; [assumption|]);
    first [now apply Z.eqb_eq | now apply Z.eqb_eq in H2
          | now apply Z.eqb_eq in H4].
Qed.

Lemma first_mode_nan_witness :
  let top := slice_to (at_k_rows argsort [1; 0; 1; 1]%Q [1; 2; 3; 4]%Q
                         [0; 1; 0; 1])
               (window unrounded 4 (KInt 1)) in
  exists v,
    uplift_at_k argsort unrounded [1; 0; 1; 1]%Q [1; 2; 3; 4]%Q
      [0; 1; 0; 1] (KInt 1) "first" = Ok v /\
    (is_finite v <->
     (exists r, In r top /\ treated r = 1) /\
     (exists r, In r top /\ treated r = 0)).
Proof.
  apply (first_mode_nan argsort unrounded [1; 0; 1; 1]%Q [1; 2; 3; 4]%Q
           [0; 1; 0; 1] (KInt 1)).
  - reflexivity.
  - reflexivity.
  - unfold sorts_positions. simpl. reflexivity.
  - exists 0, 1. simpl. lia.
  - simpl. lia.
Defined.

(** ** Group sizes *)

Lemma count_occ_filter (t : list Z) (v : Z) :
  count_occ Z.eq_dec t v = length (filter (Z.eqb v) t).
Proof.
  induction t as [|a t IH]; simpl; [reflexivity|].
  destruct (Z.eq_dec a v) as [E|E], (Z.eqb_spec v a) as [E'|E'];
    simpl; congruence.
Qed.

Lemma two_values_list (l : list Z) :
  NoDup l -> (forall x, In x l -> x = 0 \/ x = 1) -> In 0 l -> In 1 l ->
  l = [0; 1] \/ l = [1; 0].
Proof.
  intros N B H0 H1.
  destruct l as [|a [|b [|c l]]].
  - destruct H0.
  - destruct H0 as [H0|[]], H1 as [H1|[]]. congruence.
  - inversion N as [|? ? Na _]; subst.
    assert (a <> b) by (intro; subst; apply Na; now left).
    destruct (B a (or_introl eq_refl)), (B b (or_intror (or_introl eq_refl)));
      subst; try congruence; [now left | now right].
  - exfalso. inversion N as [|? ? Na N']; subst.
    inversion N' as [|? ? Nb _]; subst.
    assert (a <> b) by (intro; subst; apply Na; now left).
    assert (a <> c) by (intro; subst; apply Na; right; now left).
    assert (b <> c) by (intro; subst; apply Nb; now left).
    pose proof (B a (or_introl eq_refl)).
    pose proof (B b (or_intror (or_introl eq_refl))).
    pose proof (B c (or_intror (or_intror (or_introl eq_refl)))).
    lia.
Qed.

Lemma unique_counts_binary (t : list Z) :
  binary_labels t -> In 0 t -> In 1 t ->
  unique_counts t = [count_eq 0 t; count_eq 1 t].
Proof.
  intros Hb H0 H1. unfold unique_counts, unique, count_eq.
  rewrite <- !count_occ_filter.
  assert (E : nodup Z.eq_dec t = [0; 1] \/ nodup Z.eq_dec t = [1; 0]).
  { apply two_values_list.
    - apply NoDup_nodup.
    - intros x Hx. apply nodup_In in Hx.
      unfold binary_labels in Hb. rewrite Forall_forall in Hb. now apply Hb.
    - now apply nodup_In.
    - now apply nodup_In. }
  destruct E as [-> | ->]; reflexivity.
Qed.

Lemma zip3_treated y u t :
  length y = length u -> length t = length u ->
  map treated (zip3 y u t) = t.
Proof.
  intros Hy Ht. apply nth_ext with (d := 0) (d' := 0).
  - rewrite length_map, zip3_length by assumption. now symmetry.
  - intros i Hi. change 0 with (treated no_subject) at 1.
    rewrite map_nth. unfold no_subject. now rewrite zip3_nth.
Qed.

Lemma filter_treated_length (h : Z -> bool) (l : list subject) :
  length (filter (fun r => h (treated r)) l)
  = length (filter h (map treated l)).
Proof.
  induction l as [|r l IH]; simpl; [reflexivity|].
  destruct (h (treated r)); simpl; now rewrite IH.
Qed.

Lemma group_sizes (rows : list subject) y u t :
  length y = length u -> length t = length u ->
  Permutation rows (zip3 y u t) ->
  count_eq 0 t = Z.of_nat (group_count is_control rows) /\
  count_eq 1 t = Z.of_nat (group_count is_treated rows).
Proof.
  intros Hy Ht P. unfold count_eq.
  rewrite (group_count_perm is_control _ _ P),
    (group_count_perm is_treated _ _ P).
  unfold group_count.
  assert (E : forall v,
             length (filter (Z.eqb v) t)
             = length (filter (fun r => treated r =? v) (zip3 y u t))).
  { intro v. rewrite <- (zip3_treated y u t Hy Ht) at 1.
    rewrite <- filter_treated_length. f_equal.
    apply filter_ext. intro r. apply Z.eqb_sym. }
  rewrite !E. split; reflexivity.
Qed.

Lemma in_count_eq (v : Z) (t : list Z) : In v t -> 1 <= count_eq v t.
Proof.
  intro H. unfold count_eq.
  assert (G : In v (filter (Z.eqb v) t))
    by (apply filter_In; split; [exact H | apply Z.eqb_refl]).
  destruct (filter (Z.eqb v) t); [destruct G | simpl; lia].
Qed.

Lemma group_top_length g n rows :
  0 <= n <= Z.of_nat (group_count g rows) ->
  length (group_top g n rows) = Z.to_nat n.
Proof.
  intro H. unfold group_top, group_count in *. rewrite length_firstn. lia.
Qed.

Lemma group_top_mean_finite g n rows :
  1 <= n -> (1 <= group_count g rows)%nat ->
  is_finite (mean (map outcome (group_top g n rows))).
Proof.
  intros Hn Hc. apply mean_finite. intro E. apply map_eq_nil in E.
  apply (f_equal (@length subject)) in E. unfold group_top in E.
  rewrite length_firstn in E. unfold group_count in Hc. simpl in E. lia.
Qed.

Section AtKGroup.
Variable argsort_default : list Q -> list nat.
Variable round64 : Q -> Q.
Variables (y u : list Q) (t : list Z) (k : kparam).
Hypothesis len_y : length y = length u.
Hypothesis len_t : length u = length t.
Hypothesis sorted : sorts_positions argsort_default u.
Hypothesis labels01 : binary_labels t.
Hypothesis has_ctrl : In 0 t.
Hypothesis has_trmnt : In 1 t.
Hypothesis valid : k_valid k (Z.of_nat (length y)).

Let rows := at_k_rows argsort_default y u t.

Lemma group_mode_run :
  uplift_at_k argsort_default round64 y u t k "group" =
  if window round64 (count_eq 0 t) k >? count_eq 0 t
  then Raise (ValueError GroupTooSmallCtrl) else
  if window round64 (count_eq 1 t) k >? count_eq 1 t
  then Raise (ValueError GroupTooSmallTrmnt) else
  Ok (fsub
        (mean (map outcome
                 (slice_to (filter is_treated rows)
                    (window round64 (count_eq 1 t) k))))
        (mean (map outcome
                 (slice_to (filter is_control rows)
                    (window round64 (count_eq 0 t) k))))).
Proof.
  destruct (uplift_at_k_two_groups argsort_default round64 y u t k "group"
              len_y len_t (or_intror eq_refl) 0 1 has_ctrl has_trmnt
              ltac:(lia))
    as [c0 [c1 [rest [E ->]]]].
  rewrite (unique_counts_binary t labels01 has_ctrl has_trmnt) in E.
  injection E as <- <- _.
  apply k_out_of_range_spec in valid as Hk'. destruct Hk' as [-> ->].
  cbn [negb]. cbv zeta.
  change (String.eqb "group" "first") with false. cbv iota.
  destruct (_ >? count_eq 0 t); [reflexivity|].
  destruct (_ >? count_eq 1 t); [reflexivity|].
  rewrite (at_k_take_y argsort_default y u t),
    (at_k_take_t argsort_default y u t) by assumption.
  cbn [bind]. fold rows.
  rewrite is_treated_mask, is_control_mask, !compress_map, !slice_to_map.
  reflexivity.
Qed.
End AtKGroup.

(** X13.  In ['group'] mode with 0/1 labels, both groups present and a
    valid integer [k]: if [k] exceeds the number of controls the capacity
    error of the control group is raised; otherwise, if [k] exceeds the
    number of treated subjects, that of the treatment group; otherwise the
    score is a number, the mean outcome of the [k] best-ranked treated
    subjects minus the mean outcome of the [k] best-ranked controls. *)
Theorem group_mode_integer_k
    (argsort_default : list Q -> list nat) (round64 : Q -> Q)
    (y u : list Q) (t : list Z) (z : Z) :
  length y = length u -> length u = length t ->
  sorts_positions argsort_default u ->
  binary_labels t -> In 0 t -> In 1 t ->
  0 < z < Z.of_nat (length y) ->
  let rows := at_k_rows argsort_default y u t in
  let best_treated := group_top is_treated z rows in
  let best_controls := group_top is_control z rows in
  let score := uplift_at_k argsort_default round64 y u t (KInt z) "group" in
  (count_eq 0 t < z -> score = Raise (ValueError GroupTooSmallCtrl)) /\
  (z <= count_eq 0 t -> count_eq 1 t < z ->
   score = Raise (ValueError GroupTooSmallTrmnt)) /\
  (z <= count_eq 0 t -> z <= count_eq 1 t ->
   score = Ok (fsub (mean (map outcome best_treated))
                    (mean (map outcome best_controls))) /\
   is_finite (fsub (mean (map outcome best_treated))
                   (mean (map outcome best_controls))) /\
   length best_treated = Z.to_nat z /\
   length best_controls = Z.to_nat z).
Proof.
  intros Hy Ht Hs Hb H0 H1 Hz rows bt bc score.
  subst score.
  rewrite (group_mode_run argsort_default round64 y u t (KInt z))
    by assumption.
  simpl window. rewrite !slice_to_firstn by lia.
  change (firstn (Z.to_nat z)
            (filter is_treated (at_k_rows argsort_default y u t))) with bt.
  change (firstn (Z.to_nat z)
            (filter is_control (at_k_rows argsort_default y u t))) with bc.
  destruct (group_sizes rows y u t Hy (eq_sym Ht)
              (at_k_rows_perm argsort_default y u t Hy Ht Hs)) as [S0 S1].
  split; [|split].
  - intro H. destruct (Z.gtb_spec z (count_eq 0 t)); [reflexivity | lia].
  - intros G H. destruct (Z.gtb_spec z (count_eq 0 t)); [lia|].
    destruct (Z.gtb_spec z (count_eq 1 t)); [reflexivity | lia].
  - intros G0 G1. destruct (Z.gtb_spec z (count_eq 0 t)); [lia|].
    destruct (Z.gtb_spec z (count_eq 1 t)); [lia|].
    split; [reflexivity|]. split; [|split].
    + apply fsub_finite. split; apply group_top_mean_finite; lia.
    + apply group_top_length. fold rows. lia.
    + apply group_top_length. fold rows. lia.
Qed.

Lemma group_mode_integer_k_witness :
  let rows := at_k_rows argsort [1; 0; 1; 1]%Q [1; 2; 3; 4]%Q
                [0; 1; 0; 1] in
  let best_treated := group_top is_treated 2 rows in
  let best_controls := group_top is_control 2 rows in
  let score := uplift_at_k argsort unrounded [1; 0; 1; 1]%Q [1; 2; 3; 4]%Q
                 [0; 1; 0; 1] (KInt 2) "group" in
  (count_eq 0 [0; 1; 0; 1] < 2 ->
   score = Raise (ValueError GroupTooSmallCtrl)) /\
  (2 <= count_eq 0 [0; 1; 0; 1] -> count_eq 1 [0; 1; 0; 1] < 2 ->
   score = Raise (ValueError GroupTooSmallTrmnt)) /\
  (2 <= count_eq 0 [0; 1; 0; 1] -> 2 <= count_eq 1 [0; 1; 0; 1] ->
   score = Ok (fsub (mean (map outcome best_treated))
                    (mean (map outcome best_controls))) /\
   is_finite (fsub (mean (map outcome best_treated))
                   (mean (map outcome best_controls))) /\
   length best_treated = Z.to_nat 2 /\
   length best_controls = Z.to_nat 2).
Proof.
  apply (group_mode_integer_k argsort unrounded [1; 0; 1; 1]%Q [1; 2; 3; 4]%Q
           [0; 1; 0; 1] 2).
  - reflexivity.
  - reflexivity.
  - unfold sorts_positions. simpl. reflexivity.
  - repeat (apply Forall_cons; [lia|]). apply Forall_nil.
  - simpl. lia.
  - simpl. lia.
  - simpl. lia.
Defined.

(** X14.  In ['group'] mode with 0/1 labels, both groups present and a
    valid fractional [k], each group's window is [ceil(size * k)], the
    product taken as the machine rounds it.  With a rounding that keeps
    the order of the reals and leaves the floats [k] and the two sizes
    alone, no capacity error can occur: each window lies between 1 and
    the size of its group, and the score returned is a number, the mean
    outcome of the best-ranked treated subjects of that window minus that
    of the best-ranked controls. *)
Theorem group_mode_fraction_k
    (argsort_default : list Q -> list nat) (round64 : Q -> Q)
    (y u : list Q) (t : list Z) (q : Q) :
  length y = length u -> length u = length t ->
  sorts_positions argsort_default u ->
  rounds_to_nearest round64 (count_eq 0 t) (KFloat q) ->
  rounds_to_nearest round64 (count_eq 1 t) (KFloat q) ->
  binary_labels t -> In 0 t -> In 1 t ->
  (0 < q /\ q < 1)%Q ->
  let rows := at_k_rows argsort_default y u t in
  let w0 := window round64 (count_eq 0 t) (KFloat q) in
  let w1 := window round64 (count_eq 1 t) (KFloat q) in
  let best_treated := group_top is_treated w1 rows in
  let best_controls := group_top is_control w0 rows in
  1 <= w0 <= count_eq 0 t /\ 1 <= w1 <= count_eq 1 t /\
  uplift_at_k argsort_default round64 y u t (KFloat q) "group"
  = Ok (fsub (mean (map outcome best_treated))
             (mean (map outcome best_controls))) /\
  is_finite (fsub (mean (map outcome best_treated))
                  (mean (map outcome best_controls))) /\
  length best_treated = Z.to_nat w1 /\
  length best_controls = Z.to_nat w0.
Proof.
  intros Hy Ht Hs Hr0 Hr1 Hb H0 H1 Hq rows w0 w1 bt bc.
  rewrite (group_mode_run argsort_default round64 y u t (KFloat q))
    by assumption.
  destruct (group_sizes rows y u t Hy (eq_sym Ht)
              (at_k_rows_perm argsort_default y u t Hy Ht Hs)) as [S0 S1].
  pose proof (window_float_bounds round64 _ q Hr0 (in_count_eq 0 t H0) Hq)
    as B0.
  pose proof (window_float_bounds round64 _ q Hr1 (in_count_eq 1 t H1) Hq)
    as B1.
  fold w0 in B0 |- *. fold w1 in B1 |- *.
  split; [exact B0|]. split; [exact B1|].
  destruct (Z.gtb_spec w0 (count_eq 0 t)); [lia|].
  destruct (Z.gtb_spec w1 (count_eq 1 t)); [lia|].
  rewrite !slice_to_firstn by lia.
  split; [reflexivity|]. split; [|split].
  - apply fsub_finite. split; apply group_top_mean_finite; lia.
  - apply group_top_length. fold rows. lia.
  - apply group_top_length. fold rows. lia.
Qed.

Lemma group_mode_fraction_k_witness :
  let rows := at_k_rows argsort [1; 0; 1; 1]%Q [1; 2; 3; 4]%Q
                [0; 1; 0; 1] in
  let w0 := window unrounded (count_eq 0 [0; 1; 0; 1]) (KFloat (1 # 3)) in
  let w1 := window unrounded (count_eq 1 [0; 1; 0; 1]) (KFloat (1 # 3)) in
  let best_treated := group_top is_treated w1 rows in
  let best_controls := group_top is_control w0 rows in
  1 <= w0 <= count_eq 0 [0; 1; 0; 1] /\
  1 <= w1 <= count_eq 1 [0; 1; 0; 1] /\
  uplift_at_k argsort unrounded [1; 0; 1; 1]%Q [1; 2; 3; 4]%Q [0; 1; 0; 1]
    (KFloat (1 # 3)) "group"
  = Ok (fsub (mean (map outcome best_treated))
             (mean (map outcome best_controls))) /\
  is_finite (fsub (mean (map outcome best_treated))
                  (mean (map outcome best_controls))) /\
  length best_treated = Z.to_nat w1 /\
  length best_controls = Z.to_nat w0.
Proof.
  apply (group_mode_fraction_k argsort unrounded
           [1; 0; 1; 1]%Q [1; 2; 3; 4]%Q [0; 1; 0; 1] (1 # 3)).
  - reflexivity.
  - reflexivity.
  - unfold sorts_positions. simpl. reflexivity.
  - simpl. unfold unrounded.
    split; [intros x x' H; exact H | split; reflexivity].
  - simpl. unfold unrounded.
    split; [intros x x' H; exact H | split; reflexivity].
  - repeat (apply Forall_cons; [lia|]). apply Forall_nil.
  - simpl. lia.
  - simpl. lia.
  - lra.
Defined.

Lemma mean_perm (l l' : list Q) :
  Permutation l l' -> feq (mean l) (mean l').
Proof.
  intro P. unfold mean, fdiv. rewrite (Permutation_length P).
  destruct (Qeq_bool _ 0); simpl; [exact I|].
  now rewrite (sum_perm _ _ P).
Qed.

Lemma fsub_feq a a' b b' :
  feq a a' -> feq b b' -> feq (fsub a b) (fsub a' b').
Proof.
  destruct a, a', b, b'; simpl; try easy. intros H1 H2. now rewrite H1, H2.
Qed.

Lemma slice_to_all {A} (l : list A) :
  slice_to l (Z.of_nat (length l)) = l.
Proof.
  rewrite slice_to_firstn by lia. rewrite Nat2Z.id. apply firstn_all.
Qed.

(** X15.  In ['group'] mode with 0/1 labels, both groups present and a
    valid fractional [k] for which the window [ceil(size * k)] of each
    group, as the machine computes it, is the whole group, the score is
    the mean outcome of all treated subjects minus the mean outcome of
    all controls, whatever the scores are. *)
Theorem group_mode_whole_groups
    (argsort_default : list Q -> list nat) (round64 : Q -> Q)
    (y u : list Q) (t : list Z) (q : Q) :
  length y = length u -> length u = length t ->
  sorts_positions argsort_default u ->
  binary_labels t -> In 0 t -> In 1 t ->
  (0 < q /\ q < 1)%Q ->
  window round64 (count_eq 0 t) (KFloat q) = count_eq 0 t ->
  window round64 (count_eq 1 t) (KFloat q) = count_eq 1 t ->
  exists v,
    uplift_at_k argsort_default round64 y u t (KFloat q) "group" = Ok v /\
    feq v (overall_uplift y u t).
Proof.
  intros Hy Ht Hs Hb H0 H1 Hq W0 W1.
  rewrite (group_mode_run argsort_default round64 y u t (KFloat q))
    by assumption.
  rewrite W0, W1.
  destruct (Z.gtb_spec (count_eq 0 t) (count_eq 0 t)); [lia|].
  destruct (Z.gtb_spec (count_eq 1 t) (count_eq 1 t)); [lia|].
  eexists. split; [reflexivity|].
  pose proof (at_k_rows_perm argsort_default y u t Hy Ht Hs) as P.
  destruct (group_sizes _ y u t Hy (eq_sym Ht) P) as [S0 S1].
  rewrite S0, S1. unfold group_count. rewrite !slice_to_all.
  unfold overall_uplift, group_mean.
  apply fsub_feq; apply mean_perm, Permutation_map, filter_perm, P.
Qed.

Lemma group_mode_whole_groups_witness :
  exists v,
    uplift_at_k argsort unrounded [1; 0; 1; 1]%Q [1; 2; 3; 4]%Q [0; 1; 0; 1]
      (KFloat (2 # 3)) "group" = Ok v /\
    feq v (overall_uplift [1; 0; 1; 1]%Q [1; 2; 3; 4]%Q [0; 1; 0; 1]).
Proof.
  apply (group_mode_whole_groups argsort unrounded
           [1; 0; 1; 1]%Q [1; 2; 3; 4]%Q [0; 1; 0; 1] (2 # 3)).
  - reflexivity.
  - reflexivity.
  - unfold sorts_positions. simpl. reflexivity.
  - repeat (apply Forall_cons; [lia|]). apply Forall_nil.
  - simpl. lia.
  - simpl. lia.
  - lra.
  - reflexivity.
  - reflexivity.
Defined.

(** * A population with a single group *)

Lemma filter_all {A} (g : A -> bool) (l : list A) :
  Forall (fun x => g x = true) l -> filter g l = l.
Proof.
  intro H. apply forallb_filter_id, forallb_forall.
  now rewrite Forall_forall in H.
Qed.

Lemma filter_nothing {A} (g : A -> bool) (l : list A) :
  Forall (fun x => g x = false) l -> filter g l = [].
Proof.
  intro H. apply filter_none. now rewrite Forall_forall in H.
Qed.

Lemma single_group_values (rows : list subject) (label : Z) (p : nat) :
  label = 0 \/ label = 1 ->
  Forall (fun r => treated r = label) rows ->
  (p < length rows)%nat ->
  let s := sum (map outcome (so_far rows p)) in
  (spec_uplift_value rows p == if label =? 1 then s else - s)%Q /\
  (spec_qini_value rows p == if label =? 1 then s else 0)%Q.
Proof.
  intros Hl Hall Hp s.
  assert (Hseen : Forall (fun r => treated r = label) (so_far rows p))
    by now apply Forall_firstn.
  assert (Len : length (so_far rows p) = S p)
    by (unfold so_far; rewrite length_firstn; lia).
  unfold spec_uplift_value, spec_qini_value, group_sum, group_count.
  cbv zeta. fold s.
  destruct Hl as [-> | ->]; simpl Z.eqb; cbv iota.
  - rewrite (filter_all is_control), (filter_nothing is_treated), Len;
      try (eapply Forall_impl; [|exact Hseen]; simpl;
           unfold is_control, is_treated; intros r ->; reflexivity).
    fold s. unfold safe_mean, safe_ratio. simpl Nat.eqb. cbv iota.
    change (sum (map outcome [])) with 0%Q. simpl length.
    change (Qnat 0) with 0%Q.
    split; field; apply Qnat_nonzero.
  - rewrite (filter_all is_treated), (filter_nothing is_control), Len;
      try (eapply Forall_impl; [|exact Hseen]; simpl;
           unfold is_control, is_treated; intros r ->; reflexivity).
    fold s. unfold safe_mean, safe_ratio. simpl Nat.eqb. cbv iota.
    change (sum (map outcome [])) with 0%Q.
    split; field; apply Qnat_nonzero.
Qed.

(** X16.  When every subject carries the same label, no check stops the
    curve builders and no value is NaN.  With treated subjects only, both
    curves are the running sum of the outcomes in ranking order; with
    controls only, the uplift curve is minus that running sum and the Qini
    curve is 0 throughout. *)
Theorem single_group_curves (y u : list Q) (t : list Z) (label : Z) :
  u <> [] -> length y = length u -> length t = length u ->
  label = 0 \/ label = 1 ->
  Forall (fun z => z = label) t ->
  exists counts uvalues qvalues,
    uplift_curve y u t = Ok (0 :: counts, Finite 0 :: uvalues) /\
    qini_curve y u t = Ok (0 :: counts, Finite 0 :: qvalues) /\
    Forall2 (fun c vw => exists p : nat,
               let s := sum (map outcome (so_far (ranked y u t) p)) in
               c = Z.of_nat (S p) /\
               feq (fst vw) (Finite (if label =? 1 then s else - s)) /\
               feq (snd vw) (Finite (if label =? 1 then s else 0)))
            counts (combine uvalues qvalues).
Proof.
  intros Hne Hy Ht Hl Hall.
  rewrite (uplift_curve_run y u t Hne), (qini_curve_run y u t Hne) by lia.
  eexists. eexists. eexists.
  split; [reflexivity|]. split; [reflexivity|].
  rewrite combine_map_same.
  assert (Hrows : Forall (fun r => treated r = label) (ranked y u t)).
  { unfold ranked. apply Forall_map, Forall_forall. intros i Hi. simpl.
    apply in_rev, argsort_bound in Hi. rewrite Forall_forall in Hall.
    apply Hall, nth_In. lia. }
  assert (Hb : binary (ranked y u t)).
  { eapply Forall_impl; [|exact Hrows]. simpl. intros r ->. lia. }
  apply Forall2_map_same, threshold_positions.
  - apply (scores_nonempty y u t Hne); lia.
  - rewrite length_map, ranked_length. intros p Hp. exists p. cbv zeta.
    assert (Hp' : (p < length (ranked y u t))%nat)
      by now rewrite ranked_length.
    destruct (single_group_values _ label p Hl Hrows Hp') as [E1 E2].
    split; [lia|]. simpl fst. simpl snd. simpl feq.
    rewrite (uplift_value_spec _ _ Hb Hp'), (qini_value_spec _ _ Hb Hp').
    split; assumption.
Qed.

Lemma single_group_curves_witness :
  exists counts uvalues qvalues,
    uplift_curve [1; 0; 1]%Q [3; 2; 1]%Q [0; 0; 0]
      = Ok (0 :: counts, Finite 0 :: uvalues) /\
    qini_curve [1; 0; 1]%Q [3; 2; 1]%Q [0; 0; 0]
      = Ok (0 :: counts, Finite 0 :: qvalues) /\
    Forall2 (fun c vw => exists p : nat,
               let s := sum (map outcome
                          (so_far (ranked [1; 0; 1]%Q [3; 2; 1]%Q
                                     [0; 0; 0]) p)) in
               c = Z.of_nat (S p) /\
               feq (fst vw) (Finite (if 0 =? 1 then s else - s)) /\
               feq (snd vw) (Finite (if 0 =? 1 then s else 0)))
            counts (combine uvalues qvalues).
Proof.
  apply (single_group_curves [1; 0; 1]%Q [3; 2; 1]%Q [0; 0; 0] 0).
  - discriminate.
  - reflexivity.
  - reflexivity.
  - left. reflexivity.
  - repeat (apply Forall_cons; [lia|]). apply Forall_nil.
Defined.
